(** * Stackful-coroutine launch, yield contexts and the worker thread group

    A shallow embedding of
    - [asio/detail/polyfill_thread.hpp] (class [polyfill_thread]),
    - [asio/detail/thread_group.hpp]    (class [thread_group]),
    - [asio/spawn.hpp]                  ([spawn_signature],
      [basic_yield_context] and the declarations of [spawn]),
    followed by the properties of these definitions.

    Layout: part I holds every definition, part II every lemma. *)

From stdpp Require Import gmap list strings.

(* ===================================================================== *)
(** * Part I: definitions                                                 *)
(* ===================================================================== *)

(** ** Outcomes of running a piece of code

    [Fault] stands for behaviour the C++ standard leaves undefined or
    that ends in an error of the thread library: dereferencing a null or
    dangling pointer, joining a thread that is not joinable.
    [OutOfFuel] is returned by a loop whose iteration budget ran out. *)
Inductive result (A : Type) : Type :=
  | Ok (a : A)
  | Fault
  | OutOfFuel.
Arguments Ok {A} a.
Arguments Fault {A}.
Arguments OutOfFuel {A}.

(** ** The thread primitive [cpf::thread]

    [cpf::thread] belongs to the external polyfill library
    ([<polyfill/thread.hpp>]); the code under study only calls it.  Its
    types and member functions are therefore parameters.  Member functions
    that mutate the handle return the new handle; [cpf_join] returns [None]
    when the library rejects the call. *)
Class CpfThread : Type := {
  cpf_thread : Type;
  callable : Type;
  attributes : Type;
  priority_type : Type;
  native_priority_type : Type;
  affinity_type : Type;
  dtor_action_type : Type;
  (** [cpf::thread::attributes{}] *)
  attributes_default : attributes;
  (** [cpf::thread(attributes, f)] *)
  cpf_make : attributes → callable → cpf_thread;
  cpf_joinable : cpf_thread → bool;
  cpf_join : cpf_thread → option cpf_thread;
  cpf_priority : cpf_thread → priority_type;
  cpf_set_priority : priority_type → cpf_thread → cpf_thread;
  cpf_native_priority : cpf_thread → native_priority_type;
  cpf_set_native_priority : native_priority_type → cpf_thread → cpf_thread;
  cpf_affinity : cpf_thread → affinity_type;
  cpf_set_affinity : affinity_type → cpf_thread → cpf_thread;
  cpf_dtor_action : cpf_thread → dtor_action_type;
  cpf_set_dtor_action : dtor_action_type → cpf_thread → cpf_thread;
}.

(** What a thread library in the style of [std::thread] guarantees: a
    thread constructed on a callable is joinable, a joinable thread can be
    joined, and a joined thread is no longer joinable. *)
Class CpfThreadLaws (T : CpfThread) : Prop := {
  cpf_make_joinable :
    ∀ (attr : attributes) (f : callable), cpf_joinable (cpf_make attr f) = true;
  cpf_join_joinable :
    ∀ t : cpf_thread, cpf_joinable t = true → is_Some (cpf_join t);
  cpf_join_not_joinable :
    ∀ t t' : cpf_thread, cpf_join t = Some t' → cpf_joinable t' = false;
}.

(** ** [class polyfill_thread] *)
Module polyfill_thread.
Section with_cpf.
Context {T : CpfThread}.

Record t : Type := Build { thread_ : cpf_thread }.

(** [polyfill_thread(Function f, const attributes& attributes = {},
    unsigned int = 0) : thread_(attributes, f)] *)
Definition make (f : callable) (attr : attributes) : t :=
  {| thread_ := cpf_make attr f |}.

(** [void join() { if (thread_.joinable()) thread_.join(); }] *)
Definition join (th : t) : result t :=
  if cpf_joinable (thread_ th) then
    match cpf_join (thread_ th) with
    | Some c => Ok {| thread_ := c |}
    | None => Fault
    end
  else Ok th.

(** [n] calls of [join] in a row. *)
Fixpoint join_n (n : nat) (th : t) : result t :=
  match n with
  | O => Ok th
  | S n' =>
      match join th with
      | Ok th' => join_n n' th'
      | Fault => Fault
      | OutOfFuel => OutOfFuel
      end
  end.

(** [priority() const { return thread_.priority(); }] *)
Definition priority (th : t) : priority_type :=
  cpf_priority (thread_ th).

(** [void priority(priority_type value) { thread_.priority(value); }] *)
Definition set_priority (value : priority_type) (th : t) : t :=
  {| thread_ := cpf_set_priority value (thread_ th) |}.

(** [native_priority() const { return thread_.native_priority(); }] *)
Definition native_priority (th : t) : native_priority_type :=
  cpf_native_priority (thread_ th).

(** [void native_priority(native_priority_type value)
      { thread_.native_priority(value); }] *)
Definition set_native_priority (value : native_priority_type) (th : t) : t :=
  {| thread_ := cpf_set_native_priority value (thread_ th) |}.

(** [affinity() const { return thread_.affinity(); }] *)
Definition affinity (th : t) : affinity_type :=
  cpf_affinity (thread_ th).

(** [void affinity(const affinity_type& affinity)
      { thread_.affinity(affinity); }] *)
Definition set_affinity (affinity : affinity_type) (th : t) : t :=
  {| thread_ := cpf_set_affinity affinity (thread_ th) |}.

(** [dtor_action() const noexcept { return thread_.dtor_action(); }] *)
Definition dtor_action (th : t) : dtor_action_type :=
  cpf_dtor_action (thread_ th).

(** [void dtor_action(dtor_action_type action) noexcept
      { thread_.dtor_action(action); }] *)
Definition set_dtor_action (action : dtor_action_type) (th : t) : t :=
  {| thread_ := cpf_set_dtor_action action (thread_ th) |}.
End with_cpf.
End polyfill_thread.

(** ** [class thread_group]

    The group is an intrusive singly linked list of heap-allocated
    [item]s.  The free store is a finite map from addresses to items; a
    pointer is an optional address, [None] being the null pointer. *)
Module thread_group.
Section with_cpf.
Context {T : CpfThread}.

Definition loc : Type := positive.
Definition ptr : Type := option loc.

(** [struct item { asio::detail::thread thread_; item* next_; }], where
    [asio::detail::thread] is [polyfill_thread] in the configuration with
    [ASIO_HAS_POLYFILL_THREAD], the one in which the group has its
    tunables. *)
Record item : Type := Item { thread_ : polyfill_thread.t; next_ : ptr }.

(** The object itself: [item* first_]. *)
Record t : Type := Group { first_ : ptr }.

(** Observable steps of [join]: the thread held by the node at [l] has
    been joined (the handle after the call is recorded), the node at [l]
    has been released. *)
Inductive event : Type :=
  | EvJoin (l : loc) (th : polyfill_thread.t)
  | EvDelete (l : loc).

Record store : Type := Store { heap : gmap loc item; log : list event }.

Definition empty_store : store := {| heap := ∅; log := [] |}.

(** State and failure are threaded through every member function. *)
Definition M (A : Type) : Type := store → result (A * store).

Definition ret {A} (a : A) : M A := λ s, Ok (a, s).
Definition bind {A B} (m : M A) (k : A → M B) : M B :=
  λ s, match m s with
       | Ok (a, s') => k a s'
       | Fault => Fault
       | OutOfFuel => OutOfFuel
       end.
Definition out_of_fuel {A} : M A := λ _, OutOfFuel.
Definition lift {A} (r : result A) : M A :=
  λ s, match r with
       | Ok a => Ok (a, s)
       | Fault => Fault
       | OutOfFuel => OutOfFuel
       end.

(** [*p] *)
Definition load (p : ptr) : M item :=
  λ s, match p with
       | None => Fault
       | Some l =>
           match heap s !! l with
           | Some it => Ok (it, s)
           | None => Fault
           end
       end.

(** [p->thread_ = th]; a fault when nothing is allocated at [l] *)
Definition set_thread (l : loc) (th : polyfill_thread.t) : M unit :=
  λ s, match heap s !! l with
       | Some it =>
           Ok ((), {| heap := <[l := Item th (next_ it)]> (heap s);
                      log := log s |})
       | None => Fault
       end.

(** [new item(...)]: the node is placed at an address not in use. *)
Definition new_item (it : item) : M loc :=
  λ s, let l := fresh (dom (heap s)) in
       Ok (l, {| heap := <[l := it]> (heap s); log := log s |}).

(** [delete p]: the node is destroyed and its storage released. *)
Definition delete_item (p : ptr) : M unit :=
  λ s, match p with
       | None => Ok ((), s)
       | Some l =>
           match heap s !! l with
           | Some _ =>
               Ok ((), {| heap := delete l (heap s);
                          log := log s ++ [EvDelete l] |})
           | None => Fault
           end
       end.

Definition emit (e : event) : M unit :=
  λ s, Ok ((), {| heap := heap s; log := log s ++ [e] |}).

#[local] Instance M_ret : MRet M := @ret.
#[local] Instance M_bind : MBind M := λ A B k m, bind m k.

(** [thread_group() : first_(0) {}] *)
Definition new_group : t := {| first_ := None |}.

(** [item(Function f, const attributes& attr, item* next)
      : thread_(f, attr), next_(next)] *)
Definition make_item (f : callable) (attr : attributes) (next : ptr) : item :=
  {| thread_ := polyfill_thread.make f attr; next_ := next |}.

(** [create_thread(Function f, const attributes& attr)
      { first_ = new item(f, attr, first_); }] *)
Definition create_thread_attr (f : callable) (attr : attributes) (g : t)
  : M t :=
  l ← new_item (make_item f attr (first_ g));
  mret {| first_ := Some l |}.

(** [create_thread(Function f)
      { first_ = new item(f, cpf::thread::attributes{}, first_); }] *)
Definition create_thread (f : callable) (g : t) : M t :=
  l ← new_item (make_item f attributes_default (first_ g));
  mret {| first_ := Some l |}.

(** [for (std::size_t i = 0; i < num_threads; ++i) create_thread(f, attr);] *)
Fixpoint create_threads_attr (f : callable) (attr : attributes)
    (num_threads : nat) (g : t) : M t :=
  match num_threads with
  | O => mret g
  | S n => g' ← create_thread_attr f attr g; create_threads_attr f attr n g'
  end.

(** [for (std::size_t i = 0; i < num_threads; ++i) create_thread(f);]
    The count is a natural number; [i] never exceeds it. *)
Fixpoint create_threads (f : callable) (num_threads : nat) (g : t) : M t :=
  match num_threads with
  | O => mret g
  | S n => g' ← create_thread f g; create_threads f n g'
  end.

(** The loop shared by the four setters,
    [[
      item* current = first_;
      while (current)
      {
        current->thread_.SETTER(value);
        current = current->next_;
      }
    ]]
    with [upd] the setter applied to the node's thread.  Each iteration
    consumes one unit of [fuel]. *)
Fixpoint for_each_thread (fuel : nat)
    (upd : polyfill_thread.t → polyfill_thread.t) (current : ptr)
    {struct fuel} : M unit :=
  match current with
  | None => mret ()
  | Some l =>
      match fuel with
      | O => out_of_fuel
      | S n =>
          it ← load current;
          set_thread l (upd (thread_ it));;
          it' ← load current;
          for_each_thread n upd (next_ it')
      end
  end.

(** [priority() const { return first_->thread_.priority(); }] *)
Definition priority (g : t) : M priority_type :=
  it ← load (first_ g); mret (polyfill_thread.priority (thread_ it)).

(** [void priority(cpf::thread::priority_type value)]: the loop with
    [current->thread_.priority(value)]. *)
Definition set_priority (fuel : nat) (value : priority_type) (g : t)
  : M unit :=
  for_each_thread fuel (polyfill_thread.set_priority value) (first_ g).

(** [native_priority() const
      { return first_->thread_.native_priority(); }] *)
Definition native_priority (g : t) : M native_priority_type :=
  it ← load (first_ g); mret (polyfill_thread.native_priority (thread_ it)).

(** [void native_priority(cpf::thread::native_priority_type value)]: the
    loop with [current->thread_.native_priority(value)]. *)
Definition set_native_priority (fuel : nat) (value : native_priority_type)
    (g : t) : M unit :=
  for_each_thread fuel (polyfill_thread.set_native_priority value) (first_ g).

(** [affinity() const { return first_->thread_.affinity(); }] *)
Definition affinity (g : t) : M affinity_type :=
  it ← load (first_ g); mret (polyfill_thread.affinity (thread_ it)).

(** [void affinity(const cpf::thread::affinity_type& affinity)]: the loop
    with [current->thread_.affinity(affinity)]. *)
Definition set_affinity (fuel : nat) (affinity : affinity_type) (g : t)
  : M unit :=
  for_each_thread fuel (polyfill_thread.set_affinity affinity) (first_ g).

(** [dtor_action() const noexcept
      { return first_->thread_.dtor_action(); }] *)
Definition dtor_action (g : t) : M dtor_action_type :=
  it ← load (first_ g); mret (polyfill_thread.dtor_action (thread_ it)).

(** [void dtor_action(cpf::thread::dtor_action_type action) noexcept]: the
    loop with [current->thread_.dtor_action(action)]. *)
Definition set_dtor_action (fuel : nat) (action : dtor_action_type) (g : t)
  : M unit :=
  for_each_thread fuel (polyfill_thread.set_dtor_action action) (first_ g).

(** [[
      void join()
      {
        while (first_)
        {
          first_->thread_.join();
          item* tmp = first_;
          first_ = first_->next_;
          delete tmp;
        }
      }
    ]]
    Each iteration consumes one unit of [fuel]. *)
Fixpoint join (fuel : nat) (g : t) {struct fuel} : M t :=
  match first_ g with
  | None => mret g
  | Some l =>
      match fuel with
      | O => out_of_fuel
      | S n =>
          it ← load (first_ g);
          th ← lift (polyfill_thread.join (thread_ it));
          set_thread l th;;
          emit (EvJoin l th);;
          let tmp := first_ g in
          it' ← load (first_ g);
          let g' := {| first_ := next_ it' |} in
          delete_item tmp;;
          join n g'
      end
  end.

(** [~thread_group() { join(); }] *)
Definition destroy (fuel : nat) (g : t) : M t := join fuel g.

(** *** The list a pointer stands for

    [is_list h p ns]: starting at [p] and following [next_] in the heap
    [h] one visits exactly the nodes [ns] (address and thread), in this
    order, and then reaches the null pointer. *)
Fixpoint is_list (h : gmap loc item) (p : ptr)
    (ns : list (loc * polyfill_thread.t)) : Prop :=
  match ns with
  | [] => p = None
  | (l, th) :: ns' =>
      p = Some l ∧ ∃ q, h !! l = Some (Item th q) ∧ is_list h q ns'
  end.

(** The group [g] owns the nodes [ns] of the store [s], and nothing else
    is allocated. *)
Definition owns (g : t) (s : store) (ns : list (loc * polyfill_thread.t))
  : Prop :=
  is_list (heap s) (first_ g) ns ∧ NoDup ns.*1 ∧
  dom (heap s) = list_to_set ns.*1.

(** The ways of adding threads to a group. *)
Inductive creation : Type :=
  | CreateThread (f : callable)
  | CreateThreadAttr (f : callable) (attr : attributes)
  | CreateThreads (f : callable) (num_threads : nat)
  | CreateThreadsAttr (f : callable) (attr : attributes) (num_threads : nat).

Definition run_creation (c : creation) (g : t) : M t :=
  match c with
  | CreateThread f => create_thread f g
  | CreateThreadAttr f attr => create_thread_attr f attr g
  | CreateThreads f n => create_threads f n g
  | CreateThreadsAttr f attr n => create_threads_attr f attr n g
  end.

Fixpoint run_creations (cs : list creation) (g : t) : M t :=
  match cs with
  | [] => mret g
  | c :: cs' => g' ← run_creation c g; run_creations cs' g'
  end.

(** Number of threads a creation adds. *)
Definition created (c : creation) : nat :=
  match c with
  | CreateThread _ | CreateThreadAttr _ _ => 1
  | CreateThreads _ n | CreateThreadsAttr _ _ n => n
  end.

Definition created_total (cs : list creation) : nat :=
  sum_list (created <$> cs).

(** The heap once the nodes at [ls] have been released one after the
    other. *)
Definition free_all (ls : list loc) (h : gmap loc item) : gmap loc item :=
  foldl (λ h' l, delete l h') h ls.

(** A thread as the constructor of [item] makes it. *)
Definition made (th : polyfill_thread.t) : Prop :=
  ∃ f attr, th = polyfill_thread.make f attr.

(** [waited_for th th']: the thread [th] was joinable, [cpf::thread::join]
    was called on it and returned, leaving the handle [th'], which is not
    joinable any more. *)
Definition waited_for (th th' : polyfill_thread.t) : Prop :=
  cpf_joinable (polyfill_thread.thread_ th) = true ∧
  cpf_join (polyfill_thread.thread_ th) = Some (polyfill_thread.thread_ th') ∧
  cpf_joinable (polyfill_thread.thread_ th') = false.

(** [joined th th']: [polyfill_thread::join] on [th] succeeds and leaves
    the handle [th'], which is not joinable any more. *)
Definition joined (th th' : polyfill_thread.t) : Prop :=
  polyfill_thread.join th = Ok th' ∧
  cpf_joinable (polyfill_thread.thread_ th') = false.

(** The four getters return the tunables of the thread [th] and leave
    the store as it is. *)
Definition getters_read (g : t) (s : store) (th : polyfill_thread.t)
  : Prop :=
  priority g s = Ok (polyfill_thread.priority th, s) ∧
  native_priority g s = Ok (polyfill_thread.native_priority th, s) ∧
  affinity g s = Ok (polyfill_thread.affinity th, s) ∧
  dtor_action g s = Ok (polyfill_thread.dtor_action th, s).

(** The four getters return what the getters of [cpf::thread] return on
    the handle [c], and leave the store as it is. *)
Definition getters_return (g : t) (s : store) (c : cpf_thread) : Prop :=
  priority g s = Ok (cpf_priority c, s) ∧
  native_priority g s = Ok (cpf_native_priority c, s) ∧
  affinity g s = Ok (cpf_affinity c, s) ∧
  dtor_action g s = Ok (cpf_dtor_action c, s).

(** The node [n] once the member function [upd] of [cpf::thread] has been
    called on the handle of its thread: same address, handle updated. *)
Definition on_thread (upd : cpf_thread → cpf_thread)
    (n : loc * polyfill_thread.t) : loc * polyfill_thread.t :=
  (n.1, {| polyfill_thread.thread_ := upd (polyfill_thread.thread_ n.2) |}).

(** The four getters have no defined result. *)
Definition getters_fault (g : t) (s : store) : Prop :=
  priority g s = Fault ∧ native_priority g s = Fault ∧
  affinity g s = Fault ∧ dtor_action g s = Fault.

(** The events [join] logs for the nodes at [ls] whose threads end up as
    [ths]. *)
Fixpoint join_events (ls : list loc) (ths : list polyfill_thread.t)
  : list event :=
  match ls, ths with
  | l :: ls', th :: ths' => EvJoin l th :: EvDelete l :: join_events ls' ths'
  | _, _ => []
  end.
End with_cpf.
End thread_group.

(** ** [asio/spawn.hpp]: completion signatures *)

(** The C++ types that occur in a completion signature: [void],
    [exception_ptr], and any other type, referred to by its name.  A type
    is meant without top-level [const] or [volatile]: C++ drops these from
    a parameter type when it forms a function type. *)
Inductive ctype : Type :=
  | Tvoid
  | Texception_ptr
  | Tobject (name : string).

(** A function type [R(Params...)]. *)
Record signature : Type :=
  Signature { sig_result : ctype; sig_params : list ctype }.

Module detail.
(** [[
      template <typename T> struct spawn_signature
      { typedef void type(exception_ptr, T); };
      template <> struct spawn_signature<void>
      { typedef void type(exception_ptr); };
    ]] *)
Definition spawn_signature (T : ctype) : signature :=
  match T with
  | Tvoid => {| sig_result := Tvoid; sig_params := [Texception_ptr] |}
  | _ => {| sig_result := Tvoid; sig_params := [Texception_ptr; T] |}
  end.
End detail.

(** The six overloads of [spawn] that take a completion token, named by
    their first parameter; the [_alloc] ones also take
    [allocator_arg_t, StackAllocator]. *)
Inductive spawn_overload : Type :=
  | spawn_on_executor
  | spawn_on_context
  | spawn_on_yield
  | spawn_on_executor_alloc
  | spawn_on_context_alloc
  | spawn_on_yield_alloc.

(** The signature each overload passes to [async_initiate] (and to
    [ASIO_COMPLETION_TOKEN_FOR]); [R] stands for
    [result_of<F(basic_yield_context<Executor>)>::type], the return type
    of the coroutine function. *)
Definition completion_signature (o : spawn_overload) (R : ctype) : signature :=
  match o with
  | spawn_on_executor => detail.spawn_signature R
  | spawn_on_context => detail.spawn_signature R
  | spawn_on_yield => detail.spawn_signature R
  | spawn_on_executor_alloc => detail.spawn_signature R
  | spawn_on_context_alloc => detail.spawn_signature R
  | spawn_on_yield_alloc => detail.spawn_signature R
  end.

(** ** [asio/spawn.hpp]: [basic_yield_context] *)

(** Addresses of objects outside the thread group, and pointers to them;
    [None] is the null pointer. *)
Definition address : Type := positive.
Definition pointer : Type := option address.

(** [std::error_code] as far as the code looks at it: an integer value (an
    [int], here in [Z]) and the name of its category.  Its conversion to
    [bool] is [value() != 0]. *)
Record error_code : Type := ErrorCode { ec_value : Z; ec_category : string }.

Definition failed (ec : error_code) : bool := negb (ec_value ec =? 0)%Z.

(** [[
      detail::spawned_thread_base* spawned_thread_;
      Executor executor_;
      asio::error_code* ec_;
    ]] *)
Record basic_yield_context (Executor : Type) : Type := YieldContext {
  spawned_thread_ : pointer;
  executor_ : Executor;
  ec_ : pointer;
}.
Arguments YieldContext {Executor} _ _ _.
Arguments spawned_thread_ {Executor} _.
Arguments executor_ {Executor} _.
Arguments ec_ {Executor} _.

(** [basic_yield_context(detail::spawned_thread_base* spawned_thread,
      const Executor& ex)
      : spawned_thread_(spawned_thread), executor_(ex), ec_(0)] *)
Definition make_yield_context {Executor : Type} (spawned_thread : pointer)
    (ex : Executor) : basic_yield_context Executor :=
  {| spawned_thread_ := spawned_thread; executor_ := ex; ec_ := None |}.

(** [executor_type get_executor() const { return executor_; }] *)
Definition get_executor {Executor : Type} (y : basic_yield_context Executor)
  : Executor :=
  executor_ y.

(** [[
      basic_yield_context operator[](asio::error_code& ec) const
      {
        basic_yield_context tmp( *this );
        tmp.ec_ = &ec;
        return tmp;
      }
    ]]
    The argument is a reference, so [&ec] is the address of an object. *)
Definition yield_index {Executor : Type} (y : basic_yield_context Executor)
    (ec : address) : basic_yield_context Executor :=
  let tmp := y in
  {| spawned_thread_ := spawned_thread_ tmp;
     executor_ := executor_ tmp;
     ec_ := Some ec |}.

(** *** Executor types and the converting constructor

    The executor types of a program, the values of each, the trait
    [is_convertible<From, To>] and the implicit conversion it announces
    come from the program that instantiates the templates. *)
Class ExecutorTypes : Type := {
  executor_ty : Type;
  execution_context_ty : Type;
  executor_of : executor_ty → Type;
  is_convertible : executor_ty → executor_ty → bool;
  convert : ∀ O E : executor_ty,
    is_convertible O E = true → executor_of O → executor_of E;
  (** [ExecutionContext::executor_type] *)
  executor_type : execution_context_ty → executor_ty;
}.

Section converting_constructor.
Context {X : ExecutorTypes}.

(** [[
      template <typename OtherExecutor>
      basic_yield_context(const basic_yield_context<OtherExecutor>& other,
          typename constraint<
            is_convertible<OtherExecutor, Executor>::value>::type = 0)
        : spawned_thread_(other.spawned_thread_),
          executor_(other.executor_),
          ec_(other.ec_)
    ]]
    When the constraint does not hold the constructor is not a
    candidate: there is no conversion, [None]. *)
Definition yield_from_other (O E : executor_ty)
    (other : basic_yield_context (executor_of O))
  : option (basic_yield_context (executor_of E)) :=
  match decide (is_convertible O E = true) with
  | left H =>
      Some {| spawned_thread_ := spawned_thread_ other;
              executor_ := convert O E H (executor_ other);
              ec_ := ec_ other |}
  | right _ => None
  end.

(** The first parameter of a [spawn] overload: an executor, an execution
    context or the yield context of the parent coroutine. *)
Inductive spawn_target : Type :=
  | OnExecutor (E : executor_ty)
  | OnContext (C : execution_context_ty)
  | OnYield (E : executor_ty).

(** The [Executor] of the [detail::initiate_spawn<Executor>] an overload
    initiates with: [initiate_spawn<Executor>] for
    [spawn(const Executor&, ...)] and
    [spawn(const basic_yield_context<Executor>&, ...)],
    [initiate_spawn<typename ExecutionContext::executor_type>] for
    [spawn(ExecutionContext&, ...)]. *)
Definition resolved_executor_type (target : spawn_target) : executor_ty :=
  match target with
  | OnExecutor E => E
  | OnContext C => executor_type C
  | OnYield E => E
  end.
End converting_constructor.

(** ** The suspension protocol and the launcher

    [asio/impl/spawn.hpp], which defines what happens when a suspended call
    is resumed, the bodies of the [spawn] overloads,
    [detail::initiate_spawn] and the entry point of a spawned coroutine, is
    not among the sources.  The definitions of this section follow the
    specification in its place. *)

(** Exceptions a coroutine body can exit with: the [system_error] made from
    the error code of a failed operation, or any other exception. *)
Inductive exn : Type :=
  | system_error (ec : error_code)
  | exception (what : string).

(** [exception_ptr]: null, or the captured exception. *)
Definition exception_ptr : Type := option exn.

(** What the suspended call does once its coroutine is resumed. *)
Inductive resumption : Type :=
  | Returns
  | Throws (e : exn).

(** Modelled from the spec: the completion of an operation awaited through
    a yield context (the handler of [asio/impl/spawn.hpp] is missing).
    Section 4.2: "if the completed operation yielded an error and the Yield
    Context carries an external error-output slot (set via yield[ec]), the
    error is written there and no exception is raised; otherwise a
    non-success error is converted into a thrown error object at the exact
    suspension point".  With a slot the result of the operation is stored
    whatever it is, as the comment on [operator[]] in [spawn.hpp] has it
    ("an error_code object that should instead be set with the asynchronous
    operation's result").  [objs] holds the [error_code] objects of the
    program. *)
Definition on_resume {Executor : Type} (y : basic_yield_context Executor)
    (ec : error_code) (objs : gmap address error_code)
  : gmap address error_code * resumption :=
  match ec_ y with
  | Some slot => (<[slot := ec]> objs, Returns)
  | None =>
      if failed ec then (objs, Throws (system_error ec)) else (objs, Returns)
  end.

Module launcher.
Section with_types.
(** [Executor]: the resolved executor type; [V]: what the coroutine
    function returns; [Token]: the completion tokens; [TokenResult]: what
    an initiating function returns to its caller. *)
Context {Executor V Token TokenResult : Type}.

(** The value the completion token's contract gives back to the caller of
    an initiating function (a future, nothing, ...). *)
Variable token_result : Token → TokenResult.

(** A coroutine body, up to its next suspension point: it returns, exits
    with an exception, or awaits an operation through a yield context and
    goes on with what the suspended call does on resumption. *)
Inductive coro : Type :=
  | Return (v : V)
  | Throw (e : exn)
  | Await (y : basic_yield_context Executor) (k : resumption → coro).

Definition coroutine_function : Type := basic_yield_context Executor → coro.

(** The saved execution state of a task that is not running. *)
Inductive saved_state : Type :=
  | NotStarted (f : coroutine_function)
  | SuspendedAt (y : basic_yield_context Executor) (k : resumption → coro).

(** Modelled from the spec: the Spawned-Task record of section 3 (bound
    executor, saved state, and the completion handler to invoke at the
    end); [detail::spawned_thread_base] is only declared in [spawn.hpp]. *)
Record spawned_task : Type := SpawnedTask {
  task_executor : Executor;
  task_saved : saved_state;
  task_token : Token;
}.

(** Work an executor has been asked to run later. *)
Inductive work : Type :=
  | Start (task : address)
  | Resume (task : address) (ec : error_code).

(** One invocation of a completion handler with the arguments of
    [spawn_signature]: the [exception_ptr], and the value when there is
    one. *)
Record completion : Type := Completion {
  completed_token : Token;
  completed_error : exception_ptr;
  completed_value : option V;
}.

Record world : Type := World {
  (** the live Spawned-Task records *)
  tasks : gmap address spawned_task;
  (** work handed to [post], oldest first, with its executor *)
  posted : list (Executor * work);
  (** the [error_code] objects yield contexts may point to *)
  objects : gmap address error_code;
  (** the executions of coroutine bodies so far: executor and task *)
  entered : list (Executor * address);
  (** the completion handlers invoked so far *)
  completions : list completion;
}.

(** Modelled from the spec: [post(work)] of the Executor collaborator
    (section 6), "schedule for later ... execution". *)
Definition post (ex : Executor) (wk : work) (w : world) : world :=
  {| tasks := tasks w; posted := posted w ++ [(ex, wk)];
     objects := objects w; entered := entered w;
     completions := completions w |}.

(** Modelled from the spec: [spawn] and [detail::initiate_spawn]
    (section 4.1 and the data flow of section 2): "Spawn Launcher creates
    a Spawned-Task and posts its initial resumption onto the target
    executor", and it "immediately returns a value determined by the
    completion token's contract". *)
Definition spawn (ex : Executor) (f : coroutine_function) (token : Token)
    (w : world) : TokenResult * world :=
  let t := fresh (dom (tasks w)) in
  let task := {| task_executor := ex; task_saved := NotStarted f;
                 task_token := token |} in
  (token_result token,
   post ex (Start t)
     {| tasks := <[t := task]> (tasks w); posted := posted w;
        objects := objects w; entered := entered w;
        completions := completions w |}).

(** Modelled from the spec: [spawn(const basic_yield_context<Executor>&
    ctx, ...)], whose body is missing; section 4.1: "the new task inherits
    the parent's executor". *)
Definition spawn_from_yield (ctx : basic_yield_context Executor)
    (f : coroutine_function) (token : Token) (w : world)
  : TokenResult * world :=
  spawn (get_executor ctx) f token w.

(** Modelled from the spec: the completion of an awaited operation
    (section 4.2): "it invokes the stored callback, which posts a
    resumption of the Spawned-Task onto the context's bound executor". *)
Definition operation_completes (t : address) (ec : error_code) (w : world)
  : world :=
  match tasks w !! t with
  | Some {| task_saved := SuspendedAt y _ |} =>
      post (executor_ y) (Resume t ec) w
  | _ => w
  end.

(** The piece of coroutine body a work item runs, with the task it
    belongs to and the [error_code] objects after the resumption. *)
Definition body_of (wk : work) (w : world)
  : option (address * spawned_task * coro * gmap address error_code) :=
  match wk with
  | Start t =>
      match tasks w !! t with
      | Some task =>
          match task_saved task with
          | NotStarted f =>
              Some (t, task,
                    f (make_yield_context (Some t) (task_executor task)),
                    objects w)
          | SuspendedAt _ _ => None
          end
      | None => None
      end
  | Resume t ec =>
      match tasks w !! t with
      | Some task =>
          match task_saved task with
          | SuspendedAt y k =>
              let '(objs, r) := on_resume y ec (objects w) in
              Some (t, task, k r, objs)
          | NotStarted _ => None
          end
      | None => None
      end
  end.

(** Modelled from the spec: the entry point of a spawned coroutine.  The
    body runs to its next suspension point.  Section 4.1: "if the
    coroutine body throws, the exception is captured and delivered
    through the completion signature's error slot"; section 3: on
    completion "its completion signature is invoked and its storage
    released". *)
Definition settle (t : address) (task : spawned_task) (c : coro)
    (w : world) : world :=
  match c with
  | Return v =>
      {| tasks := delete t (tasks w); posted := posted w;
         objects := objects w; entered := entered w;
         completions := completions w ++
           [{| completed_token := task_token task;
               completed_error := None;
               completed_value := Some v |}] |}
  | Throw e =>
      {| tasks := delete t (tasks w); posted := posted w;
         objects := objects w; entered := entered w;
         completions := completions w ++
           [{| completed_token := task_token task;
               completed_error := Some e;
               completed_value := None |}] |}
  | Await y k =>
      {| tasks := <[t := {| task_executor := task_executor task;
                            task_saved := SuspendedAt y k;
                            task_token := task_token task |}]> (tasks w);
         posted := posted w; objects := objects w; entered := entered w;
         completions := completions w |}
  end.

(** Modelled from the spec: one turn of the event loop of the driving
    thread: the oldest posted work is taken off the queue and run. *)
Definition run_one (w : world) : world :=
  match posted w with
  | [] => w
  | (ex, wk) :: rest =>
      match body_of wk w with
      | Some (t, task, c, objs) =>
          settle t task c
            {| tasks := tasks w; posted := rest; objects := objs;
               entered := entered w ++ [(ex, t)];
               completions := completions w |}
      | None =>
          {| tasks := tasks w; posted := rest; objects := objects w;
             entered := entered w; completions := completions w |}
      end
  end.

Definition empty_world : world :=
  {| tasks := ∅; posted := []; objects := ∅; entered := [];
     completions := [] |}.
End with_types.
End launcher.

(** ** Reference instances

    Concrete collaborators on which the definitions can be run. *)

(** A thread handle in the style of [std::thread], extended with the
    tunables of [cpf::thread]. *)
Module std_thread.
Record handle : Type := Handle {
  running : bool;
  prio : Z;
  native_prio : Z;
  cpus : N;
  on_dtor : bool;
}.

Definition do_join (h : handle) : option handle :=
  if running h then
    Some {| running := false; prio := prio h; native_prio := native_prio h;
            cpus := cpus h; on_dtor := on_dtor h |}
  else None.

Definition threads : CpfThread := {|
  cpf_thread := handle;
  callable := string;
  attributes := Z;
  priority_type := Z;
  native_priority_type := Z;
  affinity_type := N;
  dtor_action_type := bool;
  attributes_default := 0%Z;
  cpf_make := λ attr _,
    {| running := true; prio := attr; native_prio := 0%Z; cpus := 1%N;
       on_dtor := false |};
  cpf_joinable := running;
  cpf_join := do_join;
  cpf_priority := prio;
  cpf_set_priority := λ v h,
    {| running := running h; prio := v; native_prio := native_prio h;
       cpus := cpus h; on_dtor := on_dtor h |};
  cpf_native_priority := native_prio;
  cpf_set_native_priority := λ v h,
    {| running := running h; prio := prio h; native_prio := v;
       cpus := cpus h; on_dtor := on_dtor h |};
  cpf_affinity := cpus;
  cpf_set_affinity := λ v h,
    {| running := running h; prio := prio h; native_prio := native_prio h;
       cpus := v; on_dtor := on_dtor h |};
  cpf_dtor_action := on_dtor;
  cpf_set_dtor_action := λ v h,
    {| running := running h; prio := prio h; native_prio := native_prio h;
       cpus := cpus h; on_dtor := v |};
|}.

(** A freshly started worker. *)
Definition worker : @polyfill_thread.t threads :=
  polyfill_thread.make (T := threads) "run"%string 5%Z.

(** A pool of three workers: one made by [create_thread], two by
    [create_threads] with attributes. *)
Definition pool_creations : list (@thread_group.creation threads) :=
  [thread_group.CreateThread (T := threads) "run"%string;
   thread_group.CreateThreadsAttr (T := threads) "run"%string 7%Z 2].

Definition pool_nodes : list (thread_group.loc * @polyfill_thread.t threads) :=
  [(3%positive, polyfill_thread.make (T := threads) "run"%string 7%Z);
   (2%positive, polyfill_thread.make (T := threads) "run"%string 7%Z);
   (1%positive, polyfill_thread.make (T := threads) "run"%string 0%Z)].

Definition pool : @thread_group.t := thread_group.Group (Some 3%positive).

(** The nodes of the pool with every thread at priority 9. *)
Definition pool_nodes_at_9
  : list (thread_group.loc * @polyfill_thread.t threads) :=
  [(3%positive,
    @polyfill_thread.Build threads (Handle true 9%Z 0%Z 1%N false));
   (2%positive,
    @polyfill_thread.Build threads (Handle true 9%Z 0%Z 1%N false));
   (1%positive,
    @polyfill_thread.Build threads (Handle true 9%Z 0%Z 1%N false))].

Definition pool_store : @thread_group.store threads :=
  {| thread_group.heap :=
       <[3%positive :=
           thread_group.make_item (T := threads) "run"%string 7%Z
             (Some 2%positive)]>
       (<[2%positive :=
           thread_group.make_item (T := threads) "run"%string 7%Z
             (Some 1%positive)]>
       (<[1%positive :=
           thread_group.make_item (T := threads) "run"%string 0%Z None]>
        ∅));
     thread_group.log := [] |}.
End std_thread.

(** Three executor types: every executor converts to [any_io_executor],
    and to nothing else but its own type. *)
Module sample_executors.
Inductive ety : Type := io_executor | strand_executor | any_io_executor.
Inductive cty : Type := io_context | thread_pool.

Definition convertible (O E : ety) : bool :=
  match O, E with
  | _, any_io_executor => true
  | io_executor, io_executor => true
  | strand_executor, strand_executor => true
  | _, _ => false
  end.

Definition types : ExecutorTypes := {|
  executor_ty := ety;
  execution_context_ty := cty;
  executor_of := λ _, nat;
  is_convertible := convertible;
  convert := λ _ _ _ ex, ex;
  executor_type := λ _, io_executor;
|}.
End sample_executors.

(** Coroutines of the scenarios of section 8 of the specification, on
    executors named by numbers, returning an integer, with completion
    tokens named by strings and nothing returned to the caller of
    [spawn]. *)
Module sample_coroutines.
Definition no_result (token : string) : unit := ().

(** The error code [E] of the scenario. *)
Definition E : error_code := {| ec_value := 104; ec_category := "system" |}.
Definition success : error_code := {| ec_value := 0; ec_category := "system" |}.

(** Two operations in sequence, neither with an error slot, no handler for
    exceptions: an exception thrown by an awaited call leaves the body. *)
Definition two_reads : @launcher.coroutine_function nat Z :=
  λ yield,
    launcher.Await yield (λ r1,
      match r1 with
      | Throws e => launcher.Throw e
      | Returns =>
          launcher.Await yield (λ r2,
            match r2 with
            | Throws e => launcher.Throw e
            | Returns => launcher.Return 42%Z
            end)
      end).

(** The same with the error slot at address [slot] on the second
    operation. *)
Definition two_reads_ec (slot : address) : @launcher.coroutine_function nat Z :=
  λ yield,
    launcher.Await yield (λ r1,
      match r1 with
      | Throws e => launcher.Throw e
      | Returns =>
          launcher.Await (yield_index yield slot) (λ r2,
            match r2 with
            | Throws e => launcher.Throw e
            | Returns => launcher.Return 42%Z
            end)
      end).

(** A body that throws before its first suspension. *)
Definition throws_at_once : @launcher.coroutine_function nat Z :=
  λ _, launcher.Throw (exception "bad_alloc").

(** [spawn] on executor 7, then the event loop and the completions of the
    two operations, the second one with the error code [ec]. *)
Definition scenario (f : @launcher.coroutine_function nat Z) (ec : error_code)
  : @launcher.world nat Z string :=
  let w0 := (launcher.spawn no_result 7 f "done" launcher.empty_world).2 in
  let w1 := launcher.run_one w0 in
  let w2 := launcher.run_one (launcher.operation_completes 1%positive success w1) in
  launcher.run_one (launcher.operation_completes 1%positive ec w2).

(** A world whose next turn starts [throws_at_once]. *)
Definition about_to_throw : @launcher.world nat Z string :=
  (launcher.spawn no_result 7 throws_at_once "done" launcher.empty_world).2.
End sample_coroutines.

(** ** Using a thread group

    Sequences of calls on one group, and the threads such a sequence
    creates. *)
Module thread_group_use.
Section with_cpf.
Context {T : CpfThread}.
Import thread_group.
#[local] Existing Instance M_ret.
#[local] Existing Instance M_bind.

(** A call of one of the four setters of [thread_group], with its
    argument. *)
Inductive tunable : Type :=
  | Priority (value : priority_type)
  | NativePriority (value : native_priority_type)
  | Affinity (affinity : affinity_type)
  | DtorAction (action : dtor_action_type).

(** The setter of [polyfill_thread] that the loop of the call applies to
    the thread of each node. *)
Definition tune (tn : tunable) : polyfill_thread.t → polyfill_thread.t :=
  match tn with
  | Priority value => polyfill_thread.set_priority value
  | NativePriority value => polyfill_thread.set_native_priority value
  | Affinity affinity => polyfill_thread.set_affinity affinity
  | DtorAction action => polyfill_thread.set_dtor_action action
  end.

Definition set_tunable (fuel : nat) (tn : tunable) (g : t) : M unit :=
  match tn with
  | Priority value => set_priority fuel value g
  | NativePriority value => set_native_priority fuel value g
  | Affinity affinity => set_affinity fuel affinity g
  | DtorAction action => set_dtor_action fuel action g
  end.

(** The member functions that change a group or its threads. *)
Inductive operation : Type :=
  | Create (c : creation)
  | Tune (tn : tunable)
  | Join.

Definition run_operation (fuel : nat) (op : operation) (g : t) : M t :=
  match op with
  | Create c => run_creation c g
  | Tune tn => set_tunable fuel tn g;; mret g
  | Join => join fuel g
  end.

(** The calls [ops] one after the other, each loop with the budget
    [fuel]. *)
Fixpoint run_operations (fuel : nat) (ops : list operation) (g : t) : M t :=
  match ops with
  | [] => mret g
  | op :: ops' => g' ← run_operation fuel op g; run_operations fuel ops' g'
  end.

(** The number of threads in a group that held [n] threads before the
    calls [ops]. *)
Fixpoint alive (ops : list operation) (n : nat) : nat :=
  match ops with
  | [] => n
  | Create c :: ops' => alive ops' (n + created c)
  | Tune _ :: ops' => alive ops' n
  | Join :: ops' => alive ops' 0
  end.

(** The number of threads the calls [ops] create in all. *)
Fixpoint created_by (ops : list operation) : nat :=
  match ops with
  | [] => 0
  | Create c :: ops' => created c + created_by ops'
  | _ :: ops' => created_by ops'
  end.

(** The threads a creation constructs, in the order of construction. *)
Definition threads_of (c : creation) : list polyfill_thread.t :=
  match c with
  | CreateThread f => [polyfill_thread.make f attributes_default]
  | CreateThreadAttr f attr => [polyfill_thread.make f attr]
  | CreateThreads f n => replicate n (polyfill_thread.make f attributes_default)
  | CreateThreadsAttr f attr n => replicate n (polyfill_thread.make f attr)
  end.

Definition creation_order (cs : list creation) : list polyfill_thread.t :=
  concat (threads_of <$> cs).

(** A log in which every release of a node comes right after the join of
    the thread of that very node, a thread that is then no longer
    joinable, and in which nothing else happens. *)
Fixpoint released_after_join (evs : list event) : Prop :=
  match evs with
  | [] => True
  | EvJoin l th :: EvDelete l' :: evs' =>
      l = l' ∧ cpf_joinable (polyfill_thread.thread_ th) = false ∧
      released_after_join evs'
  | _ => False
  end.
End with_cpf.
End thread_group_use.

(** Two groups whose nodes live in one heap: the first owns the nodes at 3
    and 1, the second the node at 2. *)
Module sample_two_groups.
Definition first_group : @thread_group.t := thread_group.Group (Some 3%positive).
Definition second_group : @thread_group.t := thread_group.Group (Some 2%positive).

Definition first_nodes
  : list (thread_group.loc * @polyfill_thread.t std_thread.threads) :=
  [(3%positive, polyfill_thread.make (T := std_thread.threads) "io"%string 7%Z);
   (1%positive, polyfill_thread.make (T := std_thread.threads) "io"%string 0%Z)].

Definition second_nodes
  : list (thread_group.loc * @polyfill_thread.t std_thread.threads) :=
  [(2%positive, polyfill_thread.make (T := std_thread.threads) "log"%string 4%Z)].

Definition shared_store : @thread_group.store std_thread.threads :=
  {| thread_group.heap :=
       <[3%positive :=
           thread_group.make_item (T := std_thread.threads) "io"%string 7%Z
             (Some 1%positive)]>
       (<[2%positive :=
           thread_group.make_item (T := std_thread.threads) "log"%string 4%Z
             None]>
       (<[1%positive :=
           thread_group.make_item (T := std_thread.threads) "io"%string 0%Z
             None]>
        ∅));
     thread_group.log := [] |}.

(** Creations, a setter, a join and creations again. *)
Definition busy_day : list (@thread_group_use.operation std_thread.threads) :=
  [thread_group_use.Create
     (thread_group.CreateThreads (T := std_thread.threads) "io"%string 2);
   thread_group_use.Tune (thread_group_use.Priority (T := std_thread.threads) 9%Z);
   thread_group_use.Join;
   thread_group_use.Create
     (thread_group.CreateThreadAttr (T := std_thread.threads) "log"%string 4%Z)].
End sample_two_groups.

(* ===================================================================== *)
(** * Part II: properties                                                 *)
(* ===================================================================== *)

(** ** [polyfill_thread] *)

Section polyfill_thread_facts.
Context {T : CpfThread} {L : CpfThreadLaws T}.

(** A thread that is not joinable is left alone: the underlying [join] is
    not called. *)
Lemma polyfill_join_not_joinable (th : polyfill_thread.t) :
  cpf_joinable (polyfill_thread.thread_ th) = false →
  polyfill_thread.join th = Ok th.
Proof. unfold polyfill_thread.join. by intros ->. Qed.

(** Joining always succeeds and ends in a handle that is not joinable. *)
Lemma polyfill_join_joined (th : polyfill_thread.t) :
  ∃ th', thread_group.joined th th'.
Proof.
  unfold thread_group.joined, polyfill_thread.join.
  destruct (cpf_joinable (polyfill_thread.thread_ th)) eqn:Hj.
  - destruct (cpf_join_joinable _ Hj) as [c Hc]. rewrite Hc.
    eexists; split; [done|]. simpl. by eapply cpf_join_not_joinable.
  - by exists th.
Qed.

(** Any number of calls on a thread that is not joinable leaves it as it
    is. *)
Lemma polyfill_join_n_not_joinable (n : nat) (th : polyfill_thread.t) :
  cpf_joinable (polyfill_thread.thread_ th) = false →
  polyfill_thread.join_n n th = Ok th.
Proof.
  intros Hf. induction n as [|n IH]; [done|].
  cbn [polyfill_thread.join_n]. by rewrite polyfill_join_not_joinable.
Qed.

(** C10. [polyfill_thread::join] can be called on any thread, joinable or
    not: it succeeds; the thread it leaves is not joinable; it calls the
    underlying [join] only for a joinable thread (a thread that is not
    joinable is returned as it is); calling it once more on the result
    succeeds again and changes nothing; and so any number of calls in a
    row, one at least, does what the first call does. *)
Theorem polyfill_join_idempotent (th : polyfill_thread.t) :
  ∃ th',
    polyfill_thread.join th = Ok th' ∧
    cpf_joinable (polyfill_thread.thread_ th') = false ∧
    (cpf_joinable (polyfill_thread.thread_ th) = false → th' = th) ∧
    polyfill_thread.join th' = Ok th' ∧
    (∀ n, polyfill_thread.join_n (S n) th = Ok th').
Proof.
  destruct (polyfill_join_joined th) as (th' & Hj & Hn).
  exists th'. split; [done|]. split; [done|]. split; [|split].
  - intros Hf. rewrite (polyfill_join_not_joinable _ Hf) in Hj. congruence.
  - by apply polyfill_join_not_joinable.
  - intros n. cbn [polyfill_thread.join_n]. rewrite Hj.
    by apply polyfill_join_n_not_joinable.
Qed.
End polyfill_thread_facts.

(** The reference thread handle obeys the laws of [join]. *)
Lemma std_thread_laws : CpfThreadLaws std_thread.threads.
Proof.
  split.
  - done.
  - intros [r p n c d]; simpl; intros ->. by eexists.
  - intros [r p n c d] t'; simpl. unfold std_thread.do_join; simpl.
    destruct r; [|done]. by intros [= <-].
Qed.

Lemma polyfill_join_idempotent_witness :
  CpfThreadLaws std_thread.threads ∧
  ∃ th',
    polyfill_thread.join std_thread.worker = Ok th' ∧
    cpf_joinable (polyfill_thread.thread_ th') = false ∧
    (cpf_joinable (polyfill_thread.thread_ std_thread.worker) = false →
     th' = std_thread.worker) ∧
    polyfill_thread.join th' = Ok th' ∧
    (∀ n, polyfill_thread.join_n (S n) std_thread.worker = Ok th').
Proof.
  split; [exact std_thread_laws|].
  exact (@polyfill_join_idempotent std_thread.threads std_thread_laws
           std_thread.worker).
Defined.

(** On the reference handle the guard matters: the library rejects a
    second [join], the wrapper does not attempt it. *)
Example second_join_is_guarded :
  ∃ th',
    polyfill_thread.join std_thread.worker = Ok th' ∧
    cpf_join (polyfill_thread.thread_ th') = None ∧
    polyfill_thread.join th' = Ok th'.
Proof. eexists. by repeat split. Qed.

(** ** [thread_group] *)

Section thread_group_facts.
Context {T : CpfThread}.
Import thread_group.

Implicit Types (h : gmap loc item) (p : ptr) (g : thread_group.t).
Implicit Types (s : store) (ns : list (loc * polyfill_thread.t)).

(** Unfolds the plumbing of [M]. *)
Ltac run :=
  repeat (unfold mbind, M_bind, bind, mret, M_ret, ret, lift, load,
          set_thread, new_item, delete_item, emit, out_of_fuel; simpl).

(** *** Lists in the heap *)

Lemma is_list_null h ns : is_list h None ns → ns = [].
Proof. destruct ns as [|[l th] ns]; [done|]. by intros [? _]. Qed.

(** A pointer stands for at most one list. *)
Lemma is_list_functional h p ns1 ns2 :
  is_list h p ns1 → is_list h p ns2 → ns1 = ns2.
Proof.
  revert p ns2. induction ns1 as [|[l th] ns1 IH]; intros p [|[l2 th2] ns2].
  - done.
  - simpl. intros -> [? _]. done.
  - simpl. intros [-> _] ?. done.
  - simpl. intros [-> (q & Hl & H1)] [[= <-] (q2 & Hl2 & H2)].
    rewrite Hl in Hl2. injection Hl2 as <- <-.
    f_equal. by eapply IH.
Qed.

(** Writing to or releasing an address that is not a node of the list does
    not disturb the list. *)
Lemma is_list_insert h p ns l it :
  l ∉ ns.*1 → is_list h p ns → is_list (<[l := it]> h) p ns.
Proof.
  revert p. induction ns as [|[l' th] ns IH]; intros p Hl; [done|].
  simpl in *. apply not_elem_of_cons in Hl as [Hne Hl].
  intros [-> (q & Hq & Hns)]. split; [done|]. exists q.
  split; [by rewrite lookup_insert_ne|]. by apply IH.
Qed.

Lemma is_list_delete h p ns l :
  l ∉ ns.*1 → is_list h p ns → is_list (delete l h) p ns.
Proof.
  revert p. induction ns as [|[l' th] ns IH]; intros p Hl; [done|].
  simpl in *. apply not_elem_of_cons in Hl as [Hne Hl].
  intros [-> (q & Hq & Hns)]. split; [done|]. exists q.
  split; [by rewrite lookup_delete_ne|]. by apply IH.
Qed.

(** *** Releasing nodes *)

Lemma free_all_lookup ls h l :
  free_all ls h !! l = if decide (l ∈ ls) then None else h !! l.
Proof.
  revert h. induction ls as [|l' ls IH]; intros h.
  - case_decide as Hl; [by apply elem_of_nil in Hl|done].
  - change (free_all (l' :: ls) h) with (free_all ls (delete l' h)).
    rewrite IH. destruct (decide (l ∈ ls)) as [Hin|Hnin].
    + by rewrite decide_True by (by right).
    + destruct (decide (l = l')) as [->|Hne].
      * rewrite decide_True by left. apply lookup_delete_eq.
      * rewrite decide_False by (by intros [?|?]%elem_of_cons).
        by apply lookup_delete_ne.
Qed.

Lemma free_all_owned ls h : dom h = list_to_set ls → free_all ls h = ∅.
Proof.
  intros Hdom. apply map_eq; intros l.
  rewrite free_all_lookup, lookup_empty. case_decide as Hl; [done|].
  apply not_elem_of_dom. rewrite Hdom. by rewrite elem_of_list_to_set.
Qed.

(** *** Creating threads *)

Lemma owns_new_group : owns new_group empty_store [].
Proof.
  split; [done|]. split; [constructor|]. simpl. by rewrite dom_empty_L.
Qed.

(** The address of a new node is none of the addresses in use. *)
Lemma owns_fresh g s ns : owns g s ns → fresh (dom (heap s)) ∉ ns.*1.
Proof.
  intros (_ & _ & Hdom) Hin.
  apply (is_fresh (dom (heap s))). revert Hin.
  generalize (fresh (dom (heap s))). intros l Hin.
  rewrite Hdom. by apply elem_of_list_to_set.
Qed.

(** One allocation, at the head: the new node points to the old first
    node, the rest of the heap and the log are as before. *)
Lemma create_thread_attr_owns f attr g s ns :
  owns g s ns →
  let l := fresh (dom (heap s)) in
  let s' := {| heap := <[l := make_item f attr (first_ g)]> (heap s);
               log := log s |} in
  create_thread_attr f attr g s = Ok (Group (Some l), s') ∧
  owns (Group (Some l)) s' ((l, polyfill_thread.make f attr) :: ns).
Proof.
  intros Hown l s'. split; [done|].
  pose proof (owns_fresh _ _ _ Hown) as Hl.
  destruct Hown as (Hlist & Hnd & Hdom). repeat split.
  - exists (first_ g). split; [apply lookup_insert_eq|].
    by apply is_list_insert.
  - simpl. by constructor.
  - simpl. rewrite dom_insert_L. by rewrite Hdom.
Qed.

Lemma create_thread_owns f g s ns :
  owns g s ns →
  let l := fresh (dom (heap s)) in
  let s' := {| heap := <[l := make_item f attributes_default (first_ g)]>
                         (heap s);
               log := log s |} in
  create_thread f g s = Ok (Group (Some l), s') ∧
  owns (Group (Some l)) s'
    ((l, polyfill_thread.make f attributes_default) :: ns).
Proof. apply create_thread_attr_owns. Qed.

Lemma create_threads_attr_owns f attr n g s ns :
  owns g s ns →
  ∃ g' s' ns',
    create_threads_attr f attr n g s = Ok (g', s') ∧
    owns g' s' (ns' ++ ns) ∧ length ns' = n ∧ log s' = log s ∧
    Forall made ns'.*2.
Proof.
  revert g s ns. induction n as [|n IH]; intros g s ns Hown.
  - exists g, s, []. do 4 (split; [done|]). constructor.
  - destruct (create_thread_attr_owns f attr g s ns Hown) as [Hrun Hown'].
    destruct (IH _ _ _ Hown')
      as (g' & s' & ns' & Hrun' & Hown'' & Hlen & Hlog & Hmade).
    exists g', s',
      (ns' ++ [(fresh (dom (heap s)), polyfill_thread.make f attr)]).
    split; [|split; [|split; [|split]]].
    + simpl. unfold mbind, M_bind, bind. by rewrite Hrun.
    + by rewrite <- app_assoc.
    + rewrite length_app. simpl. lia.
    + done.
    + rewrite fmap_app. apply Forall_app. split; [done|].
      repeat constructor. by exists f, attr.
Qed.

Lemma create_threads_owns f n g s ns :
  owns g s ns →
  ∃ g' s' ns',
    create_threads f n g s = Ok (g', s') ∧
    owns g' s' (ns' ++ ns) ∧ length ns' = n ∧ log s' = log s ∧
    Forall made ns'.*2.
Proof.
  revert g s ns. induction n as [|n IH]; intros g s ns Hown.
  - exists g, s, []. do 4 (split; [done|]). constructor.
  - destruct (create_thread_owns f g s ns Hown) as [Hrun Hown'].
    destruct (IH _ _ _ Hown')
      as (g' & s' & ns' & Hrun' & Hown'' & Hlen & Hlog & Hmade).
    exists g', s',
      (ns' ++ [(fresh (dom (heap s)),
                polyfill_thread.make f attributes_default)]).
    split; [|split; [|split; [|split]]].
    + simpl. unfold mbind, M_bind, bind. by rewrite Hrun.
    + by rewrite <- app_assoc.
    + rewrite length_app. simpl. lia.
    + done.
    + rewrite fmap_app. apply Forall_app. split; [done|].
      repeat constructor. by exists f, attributes_default.
Qed.

Lemma run_creation_owns c g s ns :
  owns g s ns →
  ∃ g' s' ns',
    run_creation c g s = Ok (g', s') ∧
    owns g' s' (ns' ++ ns) ∧ length ns' = created c ∧ log s' = log s ∧
    Forall made ns'.*2.
Proof.
  intros Hown. destruct c as [f|f attr|f n|f attr n]; simpl.
  - destruct (create_thread_owns f g s ns Hown) as [Hrun Hown'].
    eexists _, _, [_]. do 4 (split; [done|]).
    repeat constructor. by exists f, attributes_default.
  - destruct (create_thread_attr_owns f attr g s ns Hown) as [Hrun Hown'].
    eexists _, _, [_]. do 4 (split; [done|]).
    repeat constructor. by exists f, attr.
  - by apply create_threads_owns.
  - by apply create_threads_attr_owns.
Qed.

(** Creating threads always succeeds, and the group then owns as many
    nodes as threads were asked for. *)
Lemma run_creations_owns cs g s ns :
  owns g s ns →
  ∃ g' s' ns',
    run_creations cs g s = Ok (g', s') ∧
    owns g' s' (ns' ++ ns) ∧ length ns' = created_total cs ∧ log s' = log s ∧
    Forall made ns'.*2.
Proof.
  revert g s ns. induction cs as [|c cs IH]; intros g s ns Hown.
  - exists g, s, []. do 4 (split; [done|]). constructor.
  - destruct (run_creation_owns c g s ns Hown)
      as (g1 & s1 & ns1 & Hrun1 & Hown1 & Hlen1 & Hlog1 & Hmade1).
    destruct (IH _ _ _ Hown1)
      as (g2 & s2 & ns2 & Hrun2 & Hown2 & Hlen2 & Hlog2 & Hmade2).
    exists g2, s2, (ns2 ++ ns1). split; [|split; [|split; [|split]]].
    + simpl. unfold mbind, M_bind, bind. by rewrite Hrun1.
    + by rewrite <- app_assoc.
    + rewrite length_app. unfold created_total in *.
      rewrite fmap_cons. simpl. lia.
    + congruence.
    + rewrite fmap_app. by apply Forall_app.
Qed.

(** *** The setters *)

(** One turn of the loop. *)
Lemma for_each_thread_step n upd l s th q :
  heap s !! l = Some (Item th q) →
  for_each_thread (S n) upd (Some l) s =
  for_each_thread n upd q
    {| heap := <[l := Item (upd th) q]> (heap s); log := log s |}.
Proof.
  intros Hq. cbn [for_each_thread]. run. rewrite Hq. run. rewrite Hq. run.
  by rewrite lookup_insert_eq.
Qed.

Lemma for_each_thread_null fuel upd s :
  for_each_thread fuel upd None s = Ok ((), s).
Proof. by destruct fuel. Qed.

(** The loop visits every node of the list once, in order, and replaces
    its thread by the updated one; nothing else changes. *)
Lemma for_each_thread_spec upd ns fuel p s :
  is_list (heap s) p ns → NoDup ns.*1 → length ns ≤ fuel →
  ∃ h',
    for_each_thread fuel upd p s = Ok ((), {| heap := h'; log := log s |}) ∧
    is_list h' p (prod_map id upd <$> ns) ∧
    dom h' = dom (heap s) ∧
    (∀ l, l ∉ ns.*1 → h' !! l = heap s !! l).
Proof.
  revert fuel p s. induction ns as [|[l th] ns IH]; intros fuel p s.
  - intros -> _ _. exists (heap s). rewrite for_each_thread_null.
    by destruct s.
  - rewrite !fmap_cons. cbn [is_list fst length prod_map].
    intros [-> (q & Hq & Hns)] Hnd Hfuel.
    apply NoDup_cons in Hnd as [Hl Hnd].
    destruct fuel as [|n]; [lia|].
    rewrite (for_each_thread_step _ _ _ _ _ _ Hq).
    set (s1 := {| heap := <[l := Item (upd th) q]> (heap s); log := log s |}).
    destruct (IH n q s1) as (h' & Hrun & Hlist & Hdom & Hframe);
      [by apply is_list_insert|done|lia|].
    exists h'. split; [done|]. split; [|split].
    + split; [done|]. exists q. split; [|done].
      rewrite Hframe by done. apply lookup_insert_eq.
    + rewrite Hdom. cbn [heap s1]. rewrite dom_insert_L.
      apply subseteq_union_1_L, singleton_subseteq_l, elem_of_dom.
      by eexists.
    + intros l' [Hne Hl']%not_elem_of_cons. rewrite Hframe by done.
      cbn [heap s1]. by rewrite lookup_insert_ne.
Qed.

Lemma setter_owns upd fuel g s ns :
  owns g s ns → length ns ≤ fuel →
  ∃ s',
    for_each_thread fuel upd (first_ g) s = Ok ((), s') ∧
    owns g s' (prod_map id upd <$> ns) ∧ log s' = log s.
Proof.
  intros (Hlist & Hnd & Hdom) Hfuel.
  destruct (for_each_thread_spec upd ns fuel (first_ g) s)
    as (h' & Hrun & Hlist' & Hdom' & _); [done..|].
  eexists. split; [done|]. split; [|done].
  assert ((prod_map id upd <$> ns).*1 = ns.*1) as Hfst.
  { rewrite <- list_fmap_compose. by apply list_fmap_ext; intros ? []. }
  split; [done|]. rewrite Hfst. split; [done|]. simpl. congruence.
Qed.

(** *** The getters *)

(** A getter reads the thread of the node [first_] points to. *)
Lemma load_first g s l th ns :
  is_list (heap s) (first_ g) ((l, th) :: ns) →
  ∃ q, load (first_ g) s = Ok (Item th q, s).
Proof. intros [-> (q & Hq & _)]. exists q. run. by rewrite Hq. Qed.

Lemma getters_read_first g s l th ns :
  is_list (heap s) (first_ g) ((l, th) :: ns) → getters_read g s th.
Proof.
  intros Hlist. destruct (load_first _ _ _ _ _ Hlist) as [q Hload].
  unfold getters_read, priority, native_priority, affinity, dtor_action.
  unfold mbind, M_bind, bind. rewrite Hload. by run.
Qed.

Lemma getters_fault_null g s : first_ g = None → getters_fault g s.
Proof.
  intros Hnull.
  unfold getters_fault, priority, native_priority, affinity, dtor_action.
  rewrite Hnull. by run.
Qed.

(** The getters return what the getters of [cpf::thread] return on the
    handle of the first thread. *)
Lemma getters_return_first g s l th ns :
  is_list (heap s) (first_ g) ((l, th) :: ns) →
  getters_return g s (polyfill_thread.thread_ th).
Proof. apply getters_read_first. Qed.

(** A setter whose [polyfill_thread] member calls the member [upd] of
    [cpf::thread] leaves every node with [upd] called on its handle, and
    the getters then return what [cpf::thread] returns on the updated
    handle of the first node. *)
Lemma setter_reaches_cpf upd_p upd fuel g s ns :
  (∀ th, upd_p th =
         {| polyfill_thread.thread_ := upd (polyfill_thread.thread_ th) |}) →
  owns g s ns → length ns ≤ fuel →
  ∃ s',
    for_each_thread fuel upd_p (first_ g) s = Ok ((), s') ∧
    owns g s' (on_thread upd <$> ns) ∧
    log s' = log s ∧
    (∀ l th ns', ns = (l, th) :: ns' →
       getters_return g s' (upd (polyfill_thread.thread_ th))).
Proof.
  intros Hupd Hown Hfuel.
  destruct (setter_owns upd_p fuel g s ns Hown Hfuel)
    as (s' & Hrun & Hown' & Hlog).
  assert (prod_map id upd_p <$> ns = on_thread upd <$> ns) as Heq.
  { apply list_fmap_ext. intros i [l th] _. unfold on_thread. cbn.
    by rewrite Hupd. }
  rewrite Heq in Hown'. exists s'. do 3 (split; [done|]).
  intros l th ns' ->. rewrite fmap_cons in Hown'.
  apply (getters_return_first g s' l
           {| polyfill_thread.thread_ := upd (polyfill_thread.thread_ th) |}
           (on_thread upd <$> ns')).
  apply Hown'.
Qed.

(** C7. Let the group own the nodes [ns], listed from [first_] on.
    - [create_thread], with attributes or with the default ones, allocates
      one node and puts it in front of [ns]: the heap gains this node, whose
      [next_] is the old [first_], and nothing else is touched; the getters
      then return the tunables of the thread just created, as [cpf::thread]
      reports them.
    - Each of the four setters, given a budget of at least one loop turn per
      node, ends with the setter of [cpf::thread] called with the value on
      the handle of every thread of [ns], the nodes and their order
      unchanged; the getters then return what [cpf::thread] reports on the
      handle of the first thread after that call.
    - Each of the four getters returns the tunable that [cpf::thread]
      reports for the thread of the first node of [ns], the one added
      last, whatever the other threads hold. *)
Theorem tunables_set_all_get_newest g s ns fuel :
  owns g s ns → length ns ≤ fuel →
  (∀ f attr, ∃ l,
     let th := polyfill_thread.make f attr in
     let s' := {| heap := <[l := Item th (first_ g)]> (heap s);
                  log := log s |} in
     (l ∉ ns.*1) ∧
     create_thread_attr f attr g s = Ok (Group (Some l), s') ∧
     owns (Group (Some l)) s' ((l, th) :: ns) ∧
     getters_read (Group (Some l)) s' th ∧
     getters_return (Group (Some l)) s' (cpf_make attr f)) ∧
  (∀ f, create_thread f g s = create_thread_attr f attributes_default g s) ∧
  (∀ value, ∃ s',
     set_priority fuel value g s = Ok ((), s') ∧
     owns g s' (on_thread (cpf_set_priority value) <$> ns) ∧
     log s' = log s ∧
     (∀ l th ns', ns = (l, th) :: ns' →
        getters_return g s'
          (cpf_set_priority value (polyfill_thread.thread_ th)))) ∧
  (∀ value, ∃ s',
     set_native_priority fuel value g s = Ok ((), s') ∧
     owns g s' (on_thread (cpf_set_native_priority value) <$> ns) ∧
     log s' = log s ∧
     (∀ l th ns', ns = (l, th) :: ns' →
        getters_return g s'
          (cpf_set_native_priority value (polyfill_thread.thread_ th)))) ∧
  (∀ value, ∃ s',
     set_affinity fuel value g s = Ok ((), s') ∧
     owns g s' (on_thread (cpf_set_affinity value) <$> ns) ∧
     log s' = log s ∧
     (∀ l th ns', ns = (l, th) :: ns' →
        getters_return g s'
          (cpf_set_affinity value (polyfill_thread.thread_ th)))) ∧
  (∀ value, ∃ s',
     set_dtor_action fuel value g s = Ok ((), s') ∧
     owns g s' (on_thread (cpf_set_dtor_action value) <$> ns) ∧
     log s' = log s ∧
     (∀ l th ns', ns = (l, th) :: ns' →
        getters_return g s'
          (cpf_set_dtor_action value (polyfill_thread.thread_ th)))) ∧
  (∀ l th ns', ns = (l, th) :: ns' →
     getters_read g s th ∧
     getters_return g s (polyfill_thread.thread_ th)).
Proof.
  intros Hown Hfuel. split; [|split; [done|split; [|split; [|split; [|split]]]]].
  - intros f attr. exists (fresh (dom (heap s))).
    destruct (create_thread_attr_owns f attr g s ns Hown) as [Hrun Hown'].
    split; [by eapply owns_fresh|]. split; [done|]. split; [done|]. split.
    + eapply getters_read_first. apply Hown'.
    + eapply (getters_return_first _ _ _ (polyfill_thread.make f attr)).
      apply Hown'.
  - intros v. by apply (setter_reaches_cpf (polyfill_thread.set_priority v)).
  - intros v.
    by apply (setter_reaches_cpf (polyfill_thread.set_native_priority v)).
  - intros v. by apply (setter_reaches_cpf (polyfill_thread.set_affinity v)).
  - intros v.
    by apply (setter_reaches_cpf (polyfill_thread.set_dtor_action v)).
  - intros l th ns' ->. split.
    + eapply getters_read_first. apply Hown.
    + eapply getters_return_first. apply Hown.
Qed.
End thread_group_facts.

Section thread_group_join_facts.
Context {T : CpfThread} {L : CpfThreadLaws T}.
Import thread_group.

(** [join] on a group without nodes does nothing, whatever the budget. *)
Lemma join_empty fuel s : join fuel new_group s = Ok (new_group, s).
Proof. by destruct fuel. Qed.

(** One turn of the loop. *)
Lemma join_step n l s th th' q :
  heap s !! l = Some (Item th q) →
  polyfill_thread.join th = Ok th' →
  join (S n) (Group (Some l)) s =
  join n (Group q)
    {| heap := delete l (heap s);
       log := (log s ++ [EvJoin l th']) ++ [EvDelete l] |}.
Proof.
  intros Hq Hj. cbn [join first_].
  unfold mbind, M_bind, bind, lift, load, set_thread, emit, delete_item.
  cbn [heap log]. rewrite Hq. cbn [thread_ next_]. rewrite Hj.
  rewrite Hq. cbn [heap log next_]. rewrite lookup_insert_eq.
  cbn [next_ heap log]. rewrite lookup_insert_eq. by rewrite delete_insert_eq.
Qed.

(** [join] walks the list from [first_]: it joins the thread of a node,
    releases the node, and goes on with the next one. *)
Lemma join_spec ns fuel g s :
  is_list (heap s) (first_ g) ns → NoDup ns.*1 → length ns ≤ fuel →
  ∃ ths,
    Forall2 joined ns.*2 ths ∧
    join fuel g s =
      Ok (new_group, {| heap := free_all ns.*1 (heap s);
                        log := log s ++ join_events ns.*1 ths |}).
Proof.
  revert fuel g s. induction ns as [|[l th] ns IH]; intros fuel [p] s.
  - cbn [is_list first_]. intros -> _ _. exists []. split; [constructor|].
    cbn [join_events fmap list_fmap free_all foldl].
    rewrite app_nil_r. destruct s. apply join_empty.
  - rewrite !fmap_cons. cbn [is_list first_ fst snd length].
    intros [-> (q & Hq & Hns)] Hnd Hfuel.
    apply NoDup_cons in Hnd as [Hl Hnd].
    destruct fuel as [|n]; [lia|].
    destruct (polyfill_join_joined th) as (th' & Hj).
    rewrite (join_step _ _ _ _ _ _ Hq (proj1 Hj)).
    set (s2 := {| heap := delete l (heap s);
                  log := (log s ++ [EvJoin l th']) ++ [EvDelete l] |}).
    destruct (IH n (Group q) s2) as (ths & Hall & Hrun);
      [by apply is_list_delete|done|lia|].
    exists (th' :: ths). split; [by constructor|].
    rewrite Hrun. cbn [heap log s2 join_events]. do 3 f_equal.
    by rewrite <- !app_assoc.
Qed.

(** Joining a thread fresh from its constructor calls the underlying
    [join]. *)
Lemma joined_made th th' : made th → joined th th' → waited_for th th'.
Proof.
  intros (f & attr & ->) [Hj Hn].
  assert (cpf_joinable (polyfill_thread.thread_ (polyfill_thread.make f attr))
          = true) as Hjoinable by apply cpf_make_joinable.
  split; [done|]. split; [|done].
  unfold polyfill_thread.join in Hj. rewrite Hjoinable in Hj.
  destruct (cpf_join _) as [c|]; [|done]. by injection Hj as <-.
Qed.

Lemma joined_all_made ths ths' :
  Forall made ths → Forall2 joined ths ths' → Forall2 waited_for ths ths'.
Proof.
  intros Hmade Hall. induction Hall as [|th th' ths ths' Hj Hall IH].
  - constructor.
  - apply Forall_cons in Hmade as [Hm Hmade].
    constructor; [by apply joined_made|by apply IH].
Qed.

(** C4. Take a group on which threads were created by any sequence of
    [create_thread] and [create_threads] calls, K threads in all, and give
    [join] a budget of at least K loop turns.  Then [join] returns; the
    group owned K nodes [ns], listed from [first_] on; for each node in this
    order the thread, which was joinable, was joined (the underlying [join]
    returned and the thread is no longer joinable) and the node released
    right after, before the next thread is joined; afterwards [first_] is
    null and no node is left in the heap.  [join] on the emptied group
    returns at once and changes nothing.  The destructor is this same
    [join]. *)
Theorem join_waits_for_every_thread cs g s fuel :
  run_creations cs new_group empty_store = Ok (g, s) →
  created_total cs ≤ fuel →
  ∃ ns ths,
    owns g s ns ∧ length ns = created_total cs ∧
    Forall2 waited_for ns.*2 ths ∧
    join fuel g s =
      Ok (new_group, {| heap := ∅; log := join_events ns.*1 ths |}) ∧
    first_ new_group = None ∧
    (∀ fuel' s', join fuel' new_group s' = Ok (new_group, s')) ∧
    destroy fuel g s = join fuel g s.
Proof.
  intros Hrun Hfuel.
  destruct (run_creations_owns cs new_group empty_store [] owns_new_group)
    as (g' & s' & ns & Hrun' & Hown & Hlen & Hlog & Hmade).
  rewrite Hrun in Hrun'. injection Hrun' as <- <-.
  rewrite app_nil_r in Hown. pose proof Hown as (Hlist & Hnd & Hdom).
  destruct (join_spec ns fuel g s Hlist Hnd) as (ths & Hall & Hjoin); [lia|].
  exists ns, ths. split; [done|]. split; [done|].
  split; [by apply joined_all_made|].
  split; [|split; [done|split; [|done]]].
  - rewrite Hjoin, Hlog. by rewrite (free_all_owned _ _ Hdom).
  - intros fuel' s'. apply join_empty.
Qed.

(** C9. Every getter dereferences [first_] without a test.  On a new group
    ([first_] is null) no getter has a defined result, whatever the store.
    For a group that owns the nodes [ns], the getters are defined exactly
    when [ns] is not empty: with a first node they return its thread's
    tunables, without one they are undefined.  In particular, once [join]
    has emptied the group the getters are undefined again. *)
Theorem getters_need_a_thread g s ns fuel :
  owns g s ns → length ns ≤ fuel →
  first_ new_group = None ∧
  (∀ s0, getters_fault new_group s0) ∧
  (ns = [] → first_ g = None ∧ getters_fault g s) ∧
  (∀ l th ns', ns = (l, th) :: ns' →
     first_ g = Some l ∧ getters_read g s th) ∧
  (∃ s', join fuel g s = Ok (new_group, s') ∧ getters_fault new_group s').
Proof.
  intros (Hlist & Hnd & Hdom) Hfuel.
  split; [done|]. split; [by intros s0; apply getters_fault_null|].
  split; [|split].
  - intros ->. split; [done|]. by apply getters_fault_null.
  - intros l th ns' ->. split; [by destruct Hlist|].
    by eapply getters_read_first.
  - destruct (join_spec ns fuel g s Hlist Hnd Hfuel) as (ths & _ & Hjoin).
    eexists. split; [done|]. by apply getters_fault_null.
Qed.
End thread_group_join_facts.

(** *** The sample pool *)

Section sample_pool.
#[local] Existing Instance std_thread.threads.

Lemma pool_created :
  thread_group.run_creations std_thread.pool_creations
    thread_group.new_group thread_group.empty_store
  = Ok (std_thread.pool, std_thread.pool_store).
Proof. vm_compute. reflexivity. Qed.

Lemma pool_owned :
  thread_group.owns std_thread.pool std_thread.pool_store
    std_thread.pool_nodes.
Proof.
  split; [|split].
  - split; [done|]. eexists; split; [by vm_compute|].
    split; [done|]. eexists; split; [by vm_compute|].
    split; [done|]. eexists; split; [by vm_compute|]. done.
  - apply (bool_decide_unpack _). by vm_compute.
  - by vm_compute.
Qed.

Lemma tunables_set_all_get_newest_witness :
  thread_group.owns std_thread.pool std_thread.pool_store
    std_thread.pool_nodes ∧
  length std_thread.pool_nodes ≤ 3 ∧
  (∃ s',
     thread_group.set_priority (T := std_thread.threads) 3 9%Z
       std_thread.pool std_thread.pool_store
       = Ok ((), s') ∧
     thread_group.owns std_thread.pool s' std_thread.pool_nodes_at_9 ∧
     thread_group.log s' = thread_group.log std_thread.pool_store ∧
     thread_group.priority std_thread.pool s' = Ok (9%Z, s')) ∧
  thread_group.priority std_thread.pool std_thread.pool_store
    = Ok (7%Z, std_thread.pool_store).
Proof.
  assert (length std_thread.pool_nodes ≤ 3) as Hfuel by (simpl; lia).
  split; [exact pool_owned|]. split; [exact Hfuel|].
  destruct (tunables_set_all_get_newest std_thread.pool std_thread.pool_store
              std_thread.pool_nodes 3 pool_owned Hfuel)
    as (_ & _ & Hset & _ & _ & _ & Hget).
  split.
  - destruct (Hset 9%Z) as (s' & Hrun & Hown & Hlog & Hread).
    exists s'. split; [exact Hrun|]. split; [exact Hown|].
    split; [exact Hlog|]. exact (proj1 (Hread _ _ _ eq_refl)).
  - exact (proj1 (proj2 (Hget _ _ _ eq_refl))).
Defined.

Lemma join_waits_for_every_thread_witness :
  CpfThreadLaws std_thread.threads ∧
  thread_group.run_creations std_thread.pool_creations
    thread_group.new_group thread_group.empty_store
  = Ok (std_thread.pool, std_thread.pool_store) ∧
  thread_group.created_total std_thread.pool_creations ≤ 3 ∧
  ∃ ns ths,
    thread_group.owns std_thread.pool std_thread.pool_store ns ∧
    length ns = 3 ∧
    Forall2 thread_group.waited_for ns.*2 ths ∧
    thread_group.join 3 std_thread.pool std_thread.pool_store =
      Ok (thread_group.new_group,
          {| thread_group.heap := ∅;
             thread_group.log := thread_group.join_events ns.*1 ths |}) ∧
    (∀ fuel' s',
       thread_group.join fuel' thread_group.new_group s' =
       Ok (thread_group.new_group, s')).
Proof.
  assert (thread_group.created_total std_thread.pool_creations ≤ 3) as Hfuel
    by (vm_compute; lia).
  split; [exact std_thread_laws|]. split; [exact pool_created|].
  split; [exact Hfuel|].
  destruct (@join_waits_for_every_thread std_thread.threads std_thread_laws
              std_thread.pool_creations std_thread.pool std_thread.pool_store
              3 pool_created Hfuel)
    as (ns & ths & Hown & Hlen & Hall & Hjoin & _ & Hagain & _).
  exists ns, ths. repeat split; try done; apply Hown.
Defined.

Lemma getters_need_a_thread_witness :
  CpfThreadLaws std_thread.threads ∧
  thread_group.owns std_thread.pool std_thread.pool_store
    std_thread.pool_nodes ∧
  length std_thread.pool_nodes ≤ 3 ∧
  thread_group.getters_read std_thread.pool std_thread.pool_store
    (polyfill_thread.make (T := std_thread.threads) "run"%string 7%Z) ∧
  ∃ s',
    thread_group.join 3 std_thread.pool std_thread.pool_store
      = Ok (thread_group.new_group, s') ∧
    thread_group.getters_fault thread_group.new_group s'.
Proof.
  assert (length std_thread.pool_nodes ≤ 3) as Hfuel by (simpl; lia).
  split; [exact std_thread_laws|]. split; [exact pool_owned|].
  split; [exact Hfuel|].
  destruct (@getters_need_a_thread std_thread.threads std_thread_laws
              std_thread.pool std_thread.pool_store std_thread.pool_nodes 3
              pool_owned Hfuel)
    as (_ & _ & _ & Hread & Hjoin).
  split; [exact (proj2 (Hread _ _ _ eq_refl))|exact Hjoin].
Defined.
End sample_pool.

(** ** Completion signatures *)

Lemma spawn_signature_void :
  detail.spawn_signature Tvoid =
  {| sig_result := Tvoid; sig_params := [Texception_ptr] |}.
Proof. reflexivity. Qed.

Lemma spawn_signature_value (R : ctype) :
  R ≠ Tvoid →
  detail.spawn_signature R =
  {| sig_result := Tvoid; sig_params := [Texception_ptr; R] |}.
Proof. by destruct R. Qed.

(** The first parameter of every completion signature is the
    [exception_ptr]. *)
Lemma spawn_signature_error_slot (R : ctype) :
  head (sig_params (detail.spawn_signature R)) = Some Texception_ptr.
Proof. by destruct R. Qed.

(** C8. Whichever of the overloads with a completion token is called, the
    signature the token has to be a completion token for is
    [spawn_signature] of the return type of the coroutine function:
    [void(exception_ptr)] when it returns [void], and
    [void(exception_ptr, R)] when it returns a value of type [R]. *)
Theorem spawn_completion_signature (o : spawn_overload) (R : ctype) :
  R ≠ Tvoid →
  completion_signature o Tvoid =
    {| sig_result := Tvoid; sig_params := [Texception_ptr] |} ∧
  completion_signature o R =
    {| sig_result := Tvoid; sig_params := [Texception_ptr; R] |} ∧
  (∀ o' R', completion_signature o' R' = detail.spawn_signature R').
Proof.
  intros HR. split; [by destruct o|]. split.
  - destruct o; by apply spawn_signature_value.
  - by intros [] R'.
Qed.

Lemma spawn_completion_signature_witness :
  Tobject "std::size_t" ≠ Tvoid ∧
  completion_signature spawn_on_yield Tvoid =
    {| sig_result := Tvoid; sig_params := [Texception_ptr] |} ∧
  completion_signature spawn_on_yield (Tobject "std::size_t") =
    {| sig_result := Tvoid;
       sig_params := [Texception_ptr; Tobject "std::size_t"] |}.
Proof.
  assert (Tobject "std::size_t" ≠ Tvoid) as HR by discriminate.
  split; [exact HR|].
  destruct (spawn_completion_signature spawn_on_yield _ HR) as (Hv & Ho & _).
  by split.
Defined.

(** ** Yield contexts *)

Section yield_context_facts.
Context {X : ExecutorTypes}.

Lemma yield_from_other_convertible (O E : executor_ty)
    (other : basic_yield_context (executor_of O))
    (H : is_convertible O E = true) :
  ∃ H',
    yield_from_other O E other =
    Some {| spawned_thread_ := spawned_thread_ other;
            executor_ := convert O E H' (executor_ other);
            ec_ := ec_ other |}.
Proof.
  unfold yield_from_other.
  destruct (decide (is_convertible O E = true)) as [H'|Hn].
  - by exists H'.
  - done.
Qed.

Lemma yield_from_other_not_convertible (O E : executor_ty)
    (other : basic_yield_context (executor_of O)) :
  is_convertible O E = false → yield_from_other O E other = None.
Proof.
  intros Hf. unfold yield_from_other.
  destruct (decide (is_convertible O E = true)) as [H'|Hn].
  - congruence.
  - done.
Qed.

(** C6. A [basic_yield_context<OtherExecutor>] converts to a
    [basic_yield_context<Executor>] exactly when
    [is_convertible<OtherExecutor, Executor>] holds.  The result then
    refers to the same spawned task and carries the same error slot pointer
    (null or not), and its executor is the converted executor of the
    original.  Otherwise there is no conversion. *)
Theorem yield_context_conversion (O E : executor_ty)
    (other : basic_yield_context (executor_of O)) :
  match yield_from_other O E other with
  | Some y =>
      is_convertible O E = true ∧
      spawned_thread_ y = spawned_thread_ other ∧
      ec_ y = ec_ other ∧
      ∃ H, executor_ y = convert O E H (executor_ other)
  | None => is_convertible O E = false
  end.
Proof.
  destruct (decide (is_convertible O E = true)) as [Hc|Hc].
  - destruct (yield_from_other_convertible O E other Hc) as [H' ->].
    repeat split; [done|]. by exists H'.
  - apply not_true_is_false in Hc.
    by rewrite yield_from_other_not_convertible.
Qed.
End yield_context_facts.

(** A strand's yield context converts to one of [any_io_executor], not to
    one of [io_executor]. *)
Example strand_to_any :
  yield_from_other (X := sample_executors.types)
    sample_executors.strand_executor sample_executors.any_io_executor
    {| spawned_thread_ := Some 4%positive; executor_ := 7;
       ec_ := Some 9%positive |}
  = Some {| spawned_thread_ := Some 4%positive; executor_ := 7;
            ec_ := Some 9%positive |}.
Proof. reflexivity. Qed.

Example strand_to_io :
  yield_from_other (X := sample_executors.types)
    sample_executors.strand_executor sample_executors.io_executor
    {| spawned_thread_ := Some 4%positive; executor_ := 7;
       ec_ := Some 9%positive |}
  = None.
Proof. reflexivity. Qed.

Lemma yield_index_fields {Executor : Type} (y : basic_yield_context Executor)
    (slot : address) :
  spawned_thread_ (yield_index y slot) = spawned_thread_ y ∧
  executor_ (yield_index y slot) = executor_ y ∧
  ec_ (yield_index y slot) = Some slot.
Proof. done. Qed.

Lemma on_resume_slot {Executor : Type} (y : basic_yield_context Executor)
    (slot : address) (ec : error_code) (objs : gmap address error_code) :
  ec_ y = Some slot → on_resume y ec objs = (<[slot := ec]> objs, Returns).
Proof. unfold on_resume. by intros ->. Qed.

Lemma on_resume_no_slot {Executor : Type} (y : basic_yield_context Executor)
    (ec : error_code) (objs : gmap address error_code) :
  ec_ y = None → failed ec = true →
  on_resume y ec objs = (objs, Throws (system_error ec)).
Proof. unfold on_resume. by intros -> ->. Qed.

(** ** The launcher and the suspension protocol *)

Section launcher_facts.
Context {Executor V Token TokenResult : Type}.
Variable token_result : Token → TokenResult.
Import launcher.

Implicit Types (w : @world Executor V Token) (f : @coroutine_function Executor V).
Implicit Types (task : @spawned_task Executor V Token).

(** The address of a new task record is not in use. *)
Lemma fresh_task w : tasks w !! fresh (dom (tasks w)) = None.
Proof. apply not_elem_of_dom, is_fresh. Qed.

(** What [spawn] does to the world. *)
Lemma spawn_world ex f token w :
  spawn token_result ex f token w =
  (token_result token,
   {| tasks := <[fresh (dom (tasks w)) :=
                   {| task_executor := ex; task_saved := NotStarted f;
                      task_token := token |}]> (tasks w);
      posted := posted w ++ [(ex, Start (fresh (dom (tasks w))))];
      objects := objects w; entered := entered w;
      completions := completions w |}).
Proof. reflexivity. Qed.

(** The work [spawn] posts starts the coroutine function on a yield context
    of the new task and of the executor given to [spawn]. *)
Lemma spawn_body ex f token w :
  let t := fresh (dom (tasks w)) in
  body_of (Start t) (spawn token_result ex f token w).2 =
  Some (t,
        {| task_executor := ex; task_saved := NotStarted f;
           task_token := token |},
        f (make_yield_context (Some t) ex), objects w).
Proof.
  intros t. rewrite spawn_world. unfold body_of. cbn [snd tasks].
  by rewrite lookup_insert_eq.
Qed.

(** A resumed task goes on at the continuation of the suspended call, with
    what [on_resume] makes of the completion. *)
Lemma resume_body w t task y k ec :
  tasks w !! t = Some task → task_saved task = SuspendedAt y k →
  body_of (Resume t ec) w =
  Some (t, task, k (on_resume y ec (objects w)).2,
        (on_resume y ec (objects w)).1).
Proof.
  intros Ht Hs. unfold body_of. rewrite Ht, Hs.
  by destruct (on_resume y ec (objects w)).
Qed.

(** Running a piece of body to its end or to its next suspension point does
    not enter any body. *)
Lemma settle_entered t task (c : @coro Executor V) w :
  entered (settle t task c w) = entered w.
Proof. by destruct c. Qed.

(** C1. Let an operation awaited through a yield context complete with a
    non-success error code [ec].
    - [yield[slot_object]] is the context [y] with its error-slot pointer
      set to the address of the object; task reference and executor are
      those of [y].
    - Through a context that carries an error slot (such as one made by
      [operator[]]) [ec] is stored in the slot and the suspended call
      returns: nothing is thrown.
    - Through a context without a slot (such as one fresh from its
      constructor) the suspended call throws [system_error(ec)] and no
      object is written.
    - In a task suspended at [(y', k)] the resumption runs the continuation
      [k] of the suspended call itself on this outcome. *)
Theorem yield_error_slot (y : basic_yield_context Executor) (slot : address)
    (ec : error_code) (objs : gmap address error_code) :
  failed ec = true →
  (spawned_thread_ (yield_index y slot) = spawned_thread_ y ∧
   executor_ (yield_index y slot) = executor_ y ∧
   ec_ (yield_index y slot) = Some slot) ∧
  (∀ y' : basic_yield_context Executor, ec_ y' = Some slot →
     on_resume y' ec objs = (<[slot := ec]> objs, Returns)) ∧
  on_resume (yield_index y slot) ec objs = (<[slot := ec]> objs, Returns) ∧
  (∀ y' : basic_yield_context Executor, ec_ y' = None →
     on_resume y' ec objs = (objs, Throws (system_error ec))) ∧
  (∀ (t : pointer) (ex : Executor),
     on_resume (make_yield_context t ex) ec objs
     = (objs, Throws (system_error ec))) ∧
  (∀ w t task y' k,
     tasks w !! t = Some task → task_saved task = SuspendedAt y' k →
     objects w = objs →
     match ec_ y' with
     | Some slot' =>
         body_of (Resume t ec) w =
         Some (t, task, k Returns, <[slot' := ec]> objs)
     | None =>
         body_of (Resume t ec) w =
         Some (t, task, k (Throws (system_error ec)), objs)
     end).
Proof.
  intros Hfail. split; [apply yield_index_fields|].
  split; [by intros y'; apply on_resume_slot|].
  split; [by apply on_resume_slot|].
  split; [by intros y' Hy'; apply on_resume_no_slot|].
  split; [by intros t ex; apply on_resume_no_slot|].
  intros w t task y' k Ht Hs <-.
  rewrite (resume_body w t task y' k ec Ht Hs).
  destruct (ec_ y') as [slot'|] eqn:Hslot.
  - by rewrite (on_resume_slot y' slot').
  - by rewrite on_resume_no_slot.
Qed.

(** C2. [spawn] returns what the completion token's contract determines
    and does not run the coroutine: no body has been entered and no
    completion handler invoked when it returns.  It creates the task
    record, bound to the executor and not started, and posts one work item
    for it on that executor, behind the work already posted.  The body is
    entered when the event loop runs that work item: with nothing posted
    before, by the next turn. *)
Theorem spawn_posts_first_execution ex f token w :
  let t := fresh (dom (tasks w)) in
  let task := {| task_executor := ex; task_saved := NotStarted f;
                 task_token := token |} in
  let r := (spawn token_result ex f token w).1 in
  let w' := (spawn token_result ex f token w).2 in
  r = token_result token ∧
  tasks w !! t = None ∧
  tasks w' = <[t := task]> (tasks w) ∧
  posted w' = posted w ++ [(ex, Start t)] ∧
  entered w' = entered w ∧
  completions w' = completions w ∧
  objects w' = objects w ∧
  body_of (Start t) w' =
    Some (t, task, f (make_yield_context (Some t) ex), objects w) ∧
  (posted w = [] → entered (run_one w') = entered w ++ [(ex, t)]).
Proof.
  intros t task r w'. repeat split; try done.
  - apply fresh_task.
  - apply spawn_body.
  - intros Hq. unfold run_one.
    assert (posted w' = [(ex, Start t)]) as -> by (subst w'; simpl; by rewrite Hq).
    subst w' t. rewrite spawn_body. by rewrite settle_entered.
Qed.

(** C3. When the piece of body run by a turn of the event loop ends in an
    exception [e], the turn itself ends normally: the completion handler of
    the task is invoked with the captured exception in its [exception_ptr]
    argument and without a value, the task record is released, and the
    rest of the posted work stays in place for the next turn.  The
    [exception_ptr] is the first parameter of every completion
    signature. *)
Theorem thrown_exception_is_delivered w ex wk rest t task e objs :
  posted w = (ex, wk) :: rest →
  body_of wk w = Some (t, task, Throw e, objs) →
  run_one w =
    {| tasks := delete t (tasks w); posted := rest; objects := objs;
       entered := entered w ++ [(ex, t)];
       completions := completions w ++
         [{| completed_token := task_token task;
             completed_error := Some e;
             completed_value := None |}] |} ∧
  (∀ R, head (sig_params (detail.spawn_signature R)) = Some Texception_ptr).
Proof.
  intros Hq Hb. split; [|apply spawn_signature_error_slot].
  unfold run_one. by rewrite Hq, Hb.
Qed.
End launcher_facts.

Section spawn_from_yield_facts.
Context {X : ExecutorTypes} {V Token TokenResult : Type}.
Variable token_result : Token → TokenResult.
Import launcher.

(** C5. [spawn] with the yield context of a parent coroutine as its first
    argument initiates with the parent's executor type and is [spawn] on
    the parent's executor: the task record of the new coroutine is bound
    to it, its first execution is posted on it, and the yield context the
    new coroutine function is started on carries it. *)
Theorem spawn_from_yield_inherits_executor (E : executor_ty)
    (ctx : basic_yield_context (executor_of E))
    (f : @coroutine_function (executor_of E) V) (token : Token)
    (w : @world (executor_of E) V Token) :
  let t := fresh (dom (tasks w)) in
  let task := {| task_executor := executor_ ctx; task_saved := NotStarted f;
                 task_token := token |} in
  let child := make_yield_context (Some t) (executor_ ctx) in
  let w' := (spawn_from_yield token_result ctx f token w).2 in
  resolved_executor_type (OnYield E) = E ∧
  spawn_from_yield token_result ctx f token w =
    spawn token_result (executor_ ctx) f token w ∧
  tasks w' !! t = Some task ∧
  posted w' = posted w ++ [(executor_ ctx, Start t)] ∧
  body_of (Start t) w' = Some (t, task, f child, objects w) ∧
  get_executor child = get_executor ctx.
Proof.
  intros t task child w'. split; [done|]. split; [done|].
  split; [|split; [done|split; [|done]]].
  - subst w'. unfold spawn_from_yield, get_executor. rewrite spawn_world.
    cbn [snd tasks]. apply lookup_insert_eq.
  - apply spawn_body.
Qed.
End spawn_from_yield_facts.

(** *** The scenarios *)

Section scenarios.
Import launcher sample_coroutines.

Lemma yield_error_slot_witness :
  failed E = true ∧
  on_resume (yield_index (make_yield_context (Some 1%positive) 7) 5%positive)
    E ∅
  = (<[5%positive := E]> ∅, Returns) ∧
  on_resume (make_yield_context (Some 1%positive) 7) E ∅
  = (∅, Throws (system_error E)).
Proof.
  assert (failed E = true) as Hfail by reflexivity.
  split; [exact Hfail|].
  destruct (@yield_error_slot nat Z string
              (make_yield_context (Some 1%positive) 7) 5%positive E ∅ Hfail)
    as (_ & _ & Hslot & _ & Hnone & _).
  split; [exact Hslot|exact (Hnone (Some 1%positive) 7)].
Defined.

Lemma spawn_posts_first_execution_witness :
  posted (@empty_world nat Z string) = [] ∧
  (spawn no_result 7 two_reads "done" empty_world).1 = no_result "done" ∧
  entered (spawn no_result 7 two_reads "done" empty_world).2 = [] ∧
  posted (spawn no_result 7 two_reads "done" empty_world).2
  = [(7, Start 1%positive)] ∧
  entered (run_one (spawn no_result 7 two_reads "done" empty_world).2)
  = [(7, 1%positive)].
Proof.
  destruct (spawn_posts_first_execution no_result 7 two_reads "done"
              (@empty_world nat Z string))
    as (Hr & _ & _ & Hposted & Hentered & _ & _ & _ & Hrun).
  split; [reflexivity|]. split; [exact Hr|]. split; [exact Hentered|].
  split; [exact Hposted|exact (Hrun eq_refl)].
Defined.

Lemma thrown_exception_is_delivered_witness :
  posted about_to_throw = [(7, Start 1%positive)] ∧
  body_of (Start 1%positive) about_to_throw =
    Some (1%positive,
          {| task_executor := 7; task_saved := NotStarted throws_at_once;
             task_token := "done"%string |},
          Throw (exception "bad_alloc"), ∅) ∧
  run_one about_to_throw =
    {| tasks := delete 1%positive (tasks about_to_throw); posted := [];
       objects := ∅; entered := [(7, 1%positive)];
       completions :=
         [{| completed_token := "done"%string;
             completed_error := Some (exception "bad_alloc");
             completed_value := None |}] |}.
Proof.
  assert (posted about_to_throw = [(7, Start 1%positive)]) as Hq
    by reflexivity.
  assert (body_of (Start 1%positive) about_to_throw =
    Some (1%positive,
          {| task_executor := 7; task_saved := NotStarted throws_at_once;
             task_token := "done"%string |},
          Throw (exception "bad_alloc"), ∅)) as Hb by reflexivity.
  split; [exact Hq|]. split; [exact Hb|].
  exact (proj1 (thrown_exception_is_delivered about_to_throw 7
                  (Start 1%positive) [] 1%positive _ _ ∅ Hq Hb)).
Defined.

(** Section 8: the second operation fails with [E] and there is no error
    slot: the completion handler receives the captured exception made from
    [E]. *)
Example second_operation_fails_without_slot :
  completions (scenario two_reads E) =
  [{| completed_token := "done"%string;
      completed_error := Some (system_error E);
      completed_value := None |}].
Proof. reflexivity. Qed.

(** Section 8: with an error slot there is no exception and the slot holds
    [E]. *)
Example second_operation_fails_with_slot :
  completions (scenario (two_reads_ec 5%positive) E) =
  [{| completed_token := "done"%string;
      completed_error := None;
      completed_value := Some 42%Z |}] ∧
  objects (scenario (two_reads_ec 5%positive) E) !! 5%positive = Some E.
Proof. split; reflexivity. Qed.

(** A child spawned from a strand's yield context is posted on that
    strand. *)
Example child_runs_on_the_parent_executor :
  posted
    (spawn_from_yield no_result
       {| spawned_thread_ := Some 1%positive; executor_ := 7;
          ec_ := None |}
       two_reads "child" (@empty_world nat Z string)).2
  = [(7, Start 1%positive)].
Proof. reflexivity. Qed.
End scenarios.

(** ** More on [thread_group]: sequences of calls *)

Section thread_group_use_facts.
Context {T : CpfThread}.
Import thread_group thread_group_use.

Implicit Types (h : gmap loc item) (p : ptr) (g : thread_group.t).
Implicit Types (s : store) (ns : list (loc * polyfill_thread.t)).

(** The nodes of a list are allocated. *)
Lemma is_list_allocated h p ns l :
  is_list h p ns → l ∈ ns.*1 → l ∈ dom h.
Proof.
  revert p. induction ns as [|[l' th] ns IH]; intros p.
  - intros _ Hl. by apply elem_of_nil in Hl.
  - rewrite fmap_cons. cbn [is_list fst].
    intros [-> (q & Hq & Hns)] [->|Hl]%elem_of_cons.
    + apply elem_of_dom. by eexists.
    + by eapply IH.
Qed.

(** A list only depends on the heap at its own nodes. *)
Lemma is_list_agree h h' p ns :
  (∀ l, l ∈ ns.*1 → h' !! l = h !! l) → is_list h p ns → is_list h' p ns.
Proof.
  revert p. induction ns as [|[l' th] ns IH]; intros p Hagree; [done|].
  rewrite fmap_cons in Hagree. cbn [is_list fst] in *.
  intros [-> (q & Hq & Hns)]. split; [done|]. exists q. split.
  - rewrite Hagree; [done|]. by left.
  - apply IH; [|done]. intros l Hl. apply Hagree. by right.
Qed.

Lemma is_list_free_all h p ns ls :
  (∀ l, l ∈ ls → l ∉ ns.*1) → is_list h p ns → is_list (free_all ls h) p ns.
Proof.
  intros Hdisj. apply is_list_agree. intros l Hl.
  rewrite free_all_lookup. case_decide as Hin; [|done].
  by destruct (Hdisj l Hin).
Qed.

(** Each setter of the group is the loop with the matching setter of
    [polyfill_thread]. *)
Lemma set_tunable_loop fuel tn g :
  set_tunable fuel tn g = for_each_thread fuel (tune tn) (first_ g).
Proof. by destruct tn. Qed.

Lemma set_tunable_owns fuel tn g s ns :
  owns g s ns → length ns ≤ fuel →
  ∃ s',
    set_tunable fuel tn g s = Ok ((), s') ∧
    owns g s' (prod_map id (tune tn) <$> ns) ∧ log s' = log s.
Proof. rewrite set_tunable_loop. apply setter_owns. Qed.

(** *** Creating several threads *)

Lemma create_threads_default f n g s :
  create_threads f n g s = create_threads_attr f attributes_default n g s.
Proof.
  revert g s. induction n as [|n IH]; intros g s; [done|].
  cbn [create_threads create_threads_attr].
  unfold mbind, M_bind, bind. cbn. apply IH.
Qed.

(** X5. [create_threads] with a count of [m + n] does what
    [create_threads] with [m] followed by [create_threads] with [n] does;
    with a count of zero it changes nothing, with a count of one it is
    [create_thread].  The same holds with attributes. *)
Theorem create_threads_add f attr m n g s :
  create_threads f (m + n) g s =
    bind (create_threads f m g) (create_threads f n) s ∧
  create_threads_attr f attr (m + n) g s =
    bind (create_threads_attr f attr m g) (create_threads_attr f attr n) s ∧
  create_threads f 0 g s = Ok (g, s) ∧
  create_threads_attr f attr 0 g s = Ok (g, s) ∧
  create_threads f 1 g s = create_thread f g s ∧
  create_threads_attr f attr 1 g s = create_thread_attr f attr g s.
Proof.
  assert (∀ a k g0 s0,
    create_threads_attr f a (k + n) g0 s0 =
    bind (create_threads_attr f a k g0) (create_threads_attr f a n) s0) as Hadd.
  { intros a k. induction k as [|k IH]; intros g0 s0; [done|].
    cbn [Nat.add create_threads_attr]. unfold mbind, M_bind, bind. cbn.
    apply IH. }
  split; [|split; [apply Hadd|done]].
  rewrite create_threads_default, Hadd. unfold bind.
  rewrite create_threads_default.
  destruct (create_threads_attr f attributes_default m g s) as [[g' s']| |];
    [|done..].
  by rewrite create_threads_default.
Qed.

(** The nodes a creation adds hold the threads it constructs, the last one
    first. *)
Lemma create_threads_attr_nodes f attr n g s ns :
  owns g s ns →
  ∃ g' s' ns',
    create_threads_attr f attr n g s = Ok (g', s') ∧
    owns g' s' (ns' ++ ns) ∧
    ns'.*2 = replicate n (polyfill_thread.make f attr) ∧ log s' = log s.
Proof.
  revert g s ns. induction n as [|n IH]; intros g s ns Hown.
  - by exists g, s, [].
  - destruct (create_thread_attr_owns f attr g s ns Hown) as [Hrun Hown'].
    destruct (IH _ _ _ Hown') as (g' & s' & ns' & Hrun' & Hown'' & Hths & Hlog).
    exists g', s',
      (ns' ++ [(fresh (dom (heap s)), polyfill_thread.make f attr)]).
    split; [|split; [|split]].
    + cbn [create_threads_attr]. unfold mbind, M_bind, bind. by rewrite Hrun.
    + by rewrite <- app_assoc.
    + rewrite fmap_app, Hths. by rewrite replicate_S_end.
    + done.
Qed.

Lemma run_creation_nodes c g s ns :
  owns g s ns →
  ∃ g' s' ns',
    run_creation c g s = Ok (g', s') ∧
    owns g' s' (ns' ++ ns) ∧
    ns'.*2 = reverse (threads_of c) ∧ log s' = log s.
Proof.
  intros Hown. destruct c as [f|f attr|f n|f attr n];
    cbn [run_creation threads_of]; rewrite ?reverse_replicate.
  - destruct (create_thread_owns f g s ns Hown) as [Hrun Hown'].
    by eexists _, _, [_].
  - destruct (create_thread_attr_owns f attr g s ns Hown) as [Hrun Hown'].
    by eexists _, _, [_].
  - rewrite create_threads_default. by apply create_threads_attr_nodes.
  - by apply create_threads_attr_nodes.
Qed.

Lemma run_creations_nodes cs g s ns :
  owns g s ns →
  ∃ g' s' ns',
    run_creations cs g s = Ok (g', s') ∧
    owns g' s' (ns' ++ ns) ∧
    ns'.*2 = reverse (creation_order cs) ∧ log s' = log s.
Proof.
  revert g s ns. induction cs as [|c cs IH]; intros g s ns Hown.
  - by exists g, s, [].
  - destruct (run_creation_nodes c g s ns Hown)
      as (g1 & s1 & ns1 & Hrun1 & Hown1 & Hths1 & Hlog1).
    destruct (IH _ _ _ Hown1)
      as (g2 & s2 & ns2 & Hrun2 & Hown2 & Hths2 & Hlog2).
    exists g2, s2, (ns2 ++ ns1). split; [|split; [|split]].
    + cbn [run_creations]. unfold mbind, M_bind, bind. by rewrite Hrun1.
    + by rewrite <- app_assoc.
    + unfold creation_order in *. rewrite fmap_cons. cbn [concat].
      by rewrite reverse_app, fmap_app, Hths1, Hths2.
    + congruence.
Qed.

Lemma creation_order_length cs :
  length (creation_order cs) = created_total cs.
Proof.
  unfold creation_order, created_total.
  induction cs as [|c cs IH]; [done|].
  rewrite !fmap_cons. cbn [concat sum_list]. rewrite length_app, IH.
  f_equal. destruct c; cbn [threads_of created]; by rewrite ?length_replicate.
Qed.
End thread_group_use_facts.

Section thread_group_use_join_facts.
Context {T : CpfThread} {L : CpfThreadLaws T}.
Import thread_group thread_group_use.

Implicit Types (g : thread_group.t) (s : store).
Implicit Types (ns : list (loc * polyfill_thread.t)).

(** [join] on a group that owns its nodes leaves nothing allocated. *)
Lemma join_owned g s ns fuel :
  owns g s ns → length ns ≤ fuel →
  ∃ ths,
    Forall2 joined ns.*2 ths ∧
    join fuel g s =
      Ok (new_group, {| heap := ∅;
                        log := log s ++ join_events ns.*1 ths |}).
Proof.
  intros (Hlist & Hnd & Hdom) Hfuel.
  destruct (join_spec ns fuel g s Hlist Hnd Hfuel) as (ths & Hall & Hrun).
  exists ths. split; [done|]. by rewrite Hrun, (free_all_owned _ _ Hdom).
Qed.

(** X1. [join] empties every group that owns its nodes, not only one
    fresh from its creations: given one loop turn per node it joins and
    releases the nodes in list order, appends these events to the log and
    leaves no node allocated.  Threads that are not joinable are skipped
    without a fault.  In particular [join] does so after any setter, which
    leaves addresses and order of the nodes as they were. *)
Theorem join_empties_any_group g s ns fuel :
  owns g s ns → length ns ≤ fuel →
  (∃ ths,
     Forall2 joined ns.*2 ths ∧
     join fuel g s =
       Ok (new_group, {| heap := ∅;
                         log := log s ++ join_events ns.*1 ths |})) ∧
  (∀ tn, ∃ s1 ths,
     set_tunable fuel tn g s = Ok ((), s1) ∧
     Forall2 joined (tune tn <$> ns.*2) ths ∧
     join fuel g s1 =
       Ok (new_group, {| heap := ∅;
                         log := log s ++ join_events ns.*1 ths |})).
Proof.
  intros Hown Hfuel. split; [by apply join_owned|].
  intros tn.
  destruct (set_tunable_owns fuel tn g s ns Hown Hfuel)
    as (s1 & Hset & Hown1 & Hlog).
  destruct (join_owned g s1 _ fuel Hown1) as (ths & Hall & Hrun).
  { by rewrite length_fmap. }
  exists s1, ths. split; [done|].
  assert ((prod_map id (tune tn) <$> ns).*1 = ns.*1) as Hfst.
  { rewrite <- list_fmap_compose. by apply list_fmap_ext; intros ? []. }
  assert ((prod_map id (tune tn) <$> ns).*2 = tune tn <$> ns.*2) as Hsnd.
  { rewrite <- !list_fmap_compose. by apply list_fmap_ext; intros ? []. }
  rewrite Hfst, Hsnd, Hlog in *. by split.
Qed.

(** X2. The list of a group holds the threads in the reverse of the order
    in which they were constructed, so [join] waits for the thread created
    last first and for the thread created first last. *)
Theorem join_order_is_reverse_creation cs g s fuel :
  run_creations cs new_group empty_store = Ok (g, s) →
  created_total cs ≤ fuel →
  ∃ ns ths,
    owns g s ns ∧
    ns.*2 = reverse (creation_order cs) ∧
    Forall2 joined (reverse (creation_order cs)) ths ∧
    join fuel g s =
      Ok (new_group, {| heap := ∅; log := join_events ns.*1 ths |}).
Proof.
  intros Hrun Hfuel.
  destruct (run_creations_nodes cs new_group empty_store [] owns_new_group)
    as (g' & s' & ns & Hrun' & Hown & Hths & Hlog).
  rewrite Hrun in Hrun'. injection Hrun' as <- <-.
  rewrite app_nil_r in Hown.
  assert (length ns ≤ fuel) as Hlen.
  { rewrite <- (length_fmap snd), Hths, length_reverse.
    by rewrite creation_order_length. }
  destruct (join_owned g s ns fuel Hown Hlen) as (ths & Hall & Hjoin).
  exists ns, ths. split; [done|]. split; [done|].
  rewrite <- Hths. split; [done|]. by rewrite Hjoin, Hlog.
Qed.

(** X4. Two groups whose nodes lie in one heap do not disturb each other:
    whatever the first group does (a setter, a creation, [join]), the list
    of the second one, with its threads, is afterwards what it was. *)
Theorem groups_do_not_interfere g1 g2 s ns1 ns2 fuel :
  is_list (heap s) (first_ g1) ns1 →
  is_list (heap s) (first_ g2) ns2 →
  NoDup (ns1.*1 ++ ns2.*1) →
  length ns1 ≤ fuel →
  (∀ tn, ∃ s',
     set_tunable fuel tn g1 s = Ok ((), s') ∧
     is_list (heap s') (first_ g2) ns2) ∧
  (∀ f attr, ∃ g1' s',
     create_thread_attr f attr g1 s = Ok (g1', s') ∧
     is_list (heap s') (first_ g2) ns2) ∧
  (∃ s',
     join fuel g1 s = Ok (new_group, s') ∧
     is_list (heap s') (first_ g2) ns2).
Proof.
  intros Hl1 Hl2 (Hnd1 & Hdisj & Hnd2)%NoDup_app Hfuel. split; [|split].
  - intros tn. rewrite set_tunable_loop.
    destruct (for_each_thread_spec (tune tn) ns1 fuel (first_ g1) s)
      as (h' & Hrun & _ & _ & Hframe); [done..|].
    eexists. split; [done|]. cbn [heap].
    apply (is_list_agree (heap s)); [|done].
    intros l Hl. apply Hframe. intros Hl1'. by apply (Hdisj l).
  - intros f attr. eexists _, _. split; [done|]. cbn [heap].
    apply is_list_insert; [|done].
    intros Hin. apply (is_fresh (dom (heap s))).
    by eapply is_list_allocated.
  - destruct (join_spec ns1 fuel g1 s Hl1 Hnd1 Hfuel) as (ths & _ & Hrun).
    eexists. split; [done|]. cbn [heap].
    by apply is_list_free_all.
Qed.
End thread_group_use_join_facts.

Section thread_group_tunable_facts.
Context {T : CpfThread}.
Import thread_group thread_group_use.

Implicit Types (g : thread_group.t) (s : store).
Implicit Types (ns : list (loc * polyfill_thread.t)).

(** X3. A setter reaches the threads that are in the group when it is
    called and nothing else.  On an empty group it does nothing and does
    not fault, whatever its budget.  The group keeps no record of the
    value: a thread created after the call has the tunables its
    constructor gave it, and this is what the getters then return, while
    the older threads hold the value set. *)
Theorem setters_reach_present_threads_only g s ns fuel tn :
  owns g s ns → length ns ≤ fuel →
  (∀ fuel0 s0, set_tunable fuel0 tn new_group s0 = Ok ((), s0)) ∧
  ∃ s1,
    set_tunable fuel tn g s = Ok ((), s1) ∧
    owns g s1 (prod_map id (tune tn) <$> ns) ∧
    ∀ f attr, ∃ l s2,
      create_thread_attr f attr g s1 = Ok (Group (Some l), s2) ∧
      owns (Group (Some l)) s2
        ((l, polyfill_thread.make f attr) :: (prod_map id (tune tn) <$> ns)) ∧
      getters_read (Group (Some l)) s2 (polyfill_thread.make f attr).
Proof.
  intros Hown Hfuel. split.
  - intros fuel0 s0. rewrite set_tunable_loop. apply for_each_thread_null.
  - destruct (set_tunable_owns fuel tn g s ns Hown Hfuel)
      as (s1 & Hset & Hown1 & _).
    exists s1. split; [done|]. split; [done|]. intros f attr.
    destruct (create_thread_attr_owns f attr g s1 _ Hown1) as [Hrun Hown2].
    eexists _, _. split; [done|]. split; [done|].
    eapply getters_read_first. apply Hown2.
Qed.

(** X9. After a setter the getters return the tunables of the first
    thread with the setter of [polyfill_thread] applied to it: a getter
    observes a setter through the newest thread. *)
Theorem getters_after_setter g s l th ns fuel tn :
  owns g s ((l, th) :: ns) → S (length ns) ≤ fuel →
  ∃ s',
    set_tunable fuel tn g s = Ok ((), s') ∧
    getters_read g s' (tune tn th).
Proof.
  intros Hown Hfuel.
  destruct (set_tunable_owns fuel tn g s _ Hown Hfuel)
    as (s' & Hset & Hown' & _).
  exists s'. split; [done|].
  rewrite fmap_cons in Hown'. eapply getters_read_first. apply Hown'.
Qed.
End thread_group_tunable_facts.

Section thread_group_invariant.
Context {T : CpfThread} {L : CpfThreadLaws T}.
Import thread_group thread_group_use.

Implicit Types (g : thread_group.t) (s : store).
Implicit Types (ns : list (loc * polyfill_thread.t)).

(** A group never holds more threads than it held at first plus those
    created since. *)
Lemma alive_bound (ops : list operation) (n : nat) :
  alive ops n ≤ n + created_by ops.
Proof.
  revert n. induction ops as [|[c|tn|] ops IH]; intros n;
    cbn [alive created_by].
  - lia.
  - etrans; [apply IH|]. lia.
  - apply IH.
  - etrans; [apply (IH 0)|]. lia.
Qed.

(** Any sequence of calls keeps the group the owner of its nodes. *)
Lemma run_operations_owns ops fuel g s ns :
  owns g s ns → length ns + created_by ops ≤ fuel →
  ∃ g' s' ns',
    run_operations fuel ops g s = Ok (g', s') ∧
    owns g' s' ns' ∧ length ns' = alive ops (length ns).
Proof.
  revert g s ns. induction ops as [|op ops IH]; intros g s ns Hown Hfuel.
  - by exists g, s, ns.
  - destruct op as [c|tn|]; cbn [created_by] in Hfuel;
      cbn [run_operations run_operation alive].
    + destruct (run_creation_owns c g s ns Hown)
        as (g1 & s1 & ns1 & Hrun & Hown1 & Hlen & _).
      destruct (IH g1 s1 _ Hown1) as (g' & s' & ns' & Hrun' & Hown' & Hlen').
      { rewrite length_app. lia. }
      exists g', s', ns'. split; [|split; [done|]].
      * unfold mbind, M_bind, bind. by rewrite Hrun.
      * rewrite Hlen', length_app. f_equal. lia.
    + destruct (set_tunable_owns fuel tn g s ns Hown)
        as (s1 & Hrun & Hown1 & _); [lia|].
      destruct (IH g s1 _ Hown1) as (g' & s' & ns' & Hrun' & Hown' & Hlen').
      { rewrite length_fmap. lia. }
      exists g', s', ns'. split; [|split; [done|]].
      * unfold mbind, M_bind, bind. rewrite Hrun. cbn. done.
      * by rewrite Hlen', length_fmap.
    + destruct (join_owned g s ns fuel Hown) as (ths & _ & Hrun); [lia|].
      destruct (IH new_group {| heap := ∅;
                                log := log s ++ join_events ns.*1 ths |} [])
        as (g' & s' & ns' & Hrun' & Hown' & Hlen').
      { split; [done|]. split; [constructor|]. cbn. by rewrite dom_empty_L. }
      { cbn [length]. lia. }
      exists g', s', ns'. split; [|done].
      unfold mbind, M_bind, bind. by rewrite Hrun.
Qed.

(** X6. Starting from a new group, no sequence of creations, setter calls
    and [join]s ever faults or runs out of its budget (one loop turn per
    thread ever created is enough), and at the end the heap holds exactly
    the nodes of the group's list, one for each thread created since the
    last [join]: nothing dangles and nothing leaks.  In particular a group
    can be used again after [join], and destroying the group at the end
    leaves the heap empty. *)
Theorem operations_keep_ownership ops fuel :
  created_by ops ≤ fuel →
  ∃ g s ns,
    run_operations fuel ops new_group empty_store = Ok (g, s) ∧
    owns g s ns ∧ length ns = alive ops 0 ∧
    ∃ s', destroy fuel g s = Ok (new_group, s') ∧ heap s' = ∅.
Proof.
  intros Hfuel.
  destruct (run_operations_owns ops fuel new_group empty_store []
              owns_new_group) as (g & s & ns & Hrun & Hown & Hlen); [done|].
  exists g, s, ns. do 3 (split; [done|]).
  destruct (join_owned g s ns fuel Hown) as (ths & _ & Hjoin).
  - cbn [length] in Hlen. rewrite Hlen. pose proof (alive_bound ops 0). lia.
  - eexists. split; [exact Hjoin|done].
Qed.
End thread_group_invariant.

Section thread_group_log_facts.
Context {T : CpfThread} {L : CpfThreadLaws T}.
Import thread_group thread_group_use.

Implicit Types (g : thread_group.t) (s : store).
Implicit Types (ns : list (loc * polyfill_thread.t)).

Lemma joined_not_joinable ths ths' :
  Forall2 joined ths ths' →
  Forall (λ th, cpf_joinable (polyfill_thread.thread_ th) = false) ths'.
Proof.
  induction 1 as [|th th' ths ths' [_ Hn] _ IH]; constructor; done.
Qed.

Lemma join_events_released ls ths :
  Forall (λ th, cpf_joinable (polyfill_thread.thread_ th) = false) ths →
  released_after_join (join_events ls ths).
Proof.
  intros Hall. revert ls.
  induction Hall as [|th ths Hn _ IH]; intros [|l ls]; done.
Qed.

Lemma released_after_join_app evs1 evs2 :
  released_after_join evs1 → released_after_join evs2 →
  released_after_join (evs1 ++ evs2).
Proof.
  intros H1 H2. remember (length evs1) as n eqn:Hn.
  assert (length evs1 ≤ n) as Hle by lia. clear Hn.
  revert evs1 H1 Hle. induction n as [|n IH]; intros evs1 H1 Hle.
  - destruct evs1; [done|]. cbn [length] in Hle. lia.
  - destruct evs1 as [|[l th|l] [|[l2 th2|l2] evs1]]; try done.
    destruct H1 as (-> & Hth & H1). cbn [app released_after_join].
    split; [done|]. split; [done|]. apply IH; [done|].
    cbn [length] in Hle. lia.
Qed.

Lemma run_operations_log ops fuel g s ns :
  owns g s ns → length ns + created_by ops ≤ fuel →
  released_after_join (log s) →
  ∃ g' s',
    run_operations fuel ops g s = Ok (g', s') ∧
    released_after_join (log s').
Proof.
  revert g s ns. induction ops as [|op ops IH]; intros g s ns Hown Hfuel Hlog.
  - by exists g, s.
  - destruct op as [c|tn|]; cbn [created_by] in Hfuel;
      cbn [run_operations run_operation].
    + destruct (run_creation_owns c g s ns Hown)
        as (g1 & s1 & ns1 & Hrun & Hown1 & Hlen & Hlog1 & _).
      destruct (IH g1 s1 _ Hown1) as (g' & s' & Hrun' & Hlog').
      { rewrite length_app. lia. }
      { by rewrite Hlog1. }
      exists g', s'. split; [|done].
      unfold mbind, M_bind, bind. by rewrite Hrun.
    + destruct (set_tunable_owns fuel tn g s ns Hown)
        as (s1 & Hrun & Hown1 & Hlog1); [lia|].
      destruct (IH g s1 _ Hown1) as (g' & s' & Hrun' & Hlog').
      { rewrite length_fmap. lia. }
      { by rewrite Hlog1. }
      exists g', s'. split; [|done].
      unfold mbind, M_bind, bind. rewrite Hrun. cbn. done.
    + destruct (join_owned g s ns fuel Hown) as (ths & Hall & Hrun); [lia|].
      destruct (IH new_group {| heap := ∅;
                                log := log s ++ join_events ns.*1 ths |} [])
        as (g' & s' & Hrun' & Hlog').
      { split; [done|]. split; [constructor|]. cbn. by rewrite dom_empty_L. }
      { cbn [length]. lia. }
      { cbn [log]. apply released_after_join_app; [done|].
        by eapply join_events_released, joined_not_joinable. }
      exists g', s'. split; [|done].
      unfold mbind, M_bind, bind. by rewrite Hrun.
Qed.

(** X10. Whatever sequence of creations, setter calls and [join]s a group
    goes through, a node is only ever released right after the thread of
    that very node has been joined and is no longer joinable: no node is
    released while its thread may still be running, and no thread is
    joined without its node being released next. *)
Theorem nodes_released_only_after_join ops fuel :
  created_by ops ≤ fuel →
  ∃ g s,
    run_operations fuel ops new_group empty_store = Ok (g, s) ∧
    released_after_join (log s).
Proof.
  intros Hfuel.
  by apply (run_operations_log ops fuel new_group empty_store []
              owns_new_group).
Qed.
End thread_group_log_facts.

(** ** More on yield contexts *)

Section yield_context_more_facts.
Context {X : ExecutorTypes}.

(** X7. Indexing a yield context twice keeps the second error slot only,
    and indexing never changes the executor or the task.  Indexing and
    converting commute: the conversion of [other[ec]] is the conversion of
    [other], indexed with [ec], and there is none when [other] does not
    convert. *)
Theorem yield_index_and_conversion (O E : executor_ty)
    (other : basic_yield_context (executor_of O)) (ec1 ec2 : address) :
  yield_index (yield_index other ec1) ec2 = yield_index other ec2 ∧
  get_executor (yield_index other ec1) = get_executor other ∧
  spawned_thread_ (yield_index other ec1) = spawned_thread_ other ∧
  yield_from_other O E (yield_index other ec1) =
    (λ y, yield_index y ec1) <$> yield_from_other O E other.
Proof.
  split; [done|]. split; [done|]. split; [done|].
  unfold yield_from_other.
  by destruct (decide (is_convertible O E = true)).
Qed.
End yield_context_more_facts.

(** *** The sample pool and the two sample groups, once more *)

Section sample_pool_use.
#[local] Existing Instance std_thread.threads.
Import thread_group thread_group_use.

Lemma pool_fuel : length std_thread.pool_nodes ≤ 3.
Proof. cbn. lia. Qed.

Lemma join_empties_any_group_witness :
  CpfThreadLaws std_thread.threads ∧
  owns std_thread.pool std_thread.pool_store std_thread.pool_nodes ∧
  length std_thread.pool_nodes ≤ 3 ∧
  ∃ s1 ths,
    set_tunable 3 (Priority 9%Z) std_thread.pool std_thread.pool_store
      = Ok ((), s1) ∧
    Forall2 joined (tune (Priority 9%Z) <$> std_thread.pool_nodes.*2) ths ∧
    join 3 std_thread.pool s1 =
      Ok (new_group,
          {| heap := ∅;
             log := log std_thread.pool_store ++
                    join_events std_thread.pool_nodes.*1 ths |}).
Proof.
  split; [exact std_thread_laws|]. split; [exact pool_owned|].
  split; [exact pool_fuel|].
  exact (proj2 (@join_empties_any_group std_thread.threads std_thread_laws
                  std_thread.pool std_thread.pool_store std_thread.pool_nodes
                  3 pool_owned pool_fuel) (Priority 9%Z)).
Defined.

Lemma pool_created_fuel : created_total std_thread.pool_creations ≤ 3.
Proof. vm_compute. lia. Qed.

Lemma join_order_is_reverse_creation_witness :
  CpfThreadLaws std_thread.threads ∧
  run_creations std_thread.pool_creations new_group empty_store
    = Ok (std_thread.pool, std_thread.pool_store) ∧
  created_total std_thread.pool_creations ≤ 3 ∧
  ∃ ns ths,
    owns std_thread.pool std_thread.pool_store ns ∧
    ns.*2 = reverse (creation_order std_thread.pool_creations) ∧
    Forall2 joined (reverse (creation_order std_thread.pool_creations)) ths ∧
    join 3 std_thread.pool std_thread.pool_store =
      Ok (new_group, {| heap := ∅; log := join_events ns.*1 ths |}).
Proof.
  split; [exact std_thread_laws|]. split; [exact pool_created|].
  split; [exact pool_created_fuel|].
  exact (@join_order_is_reverse_creation std_thread.threads std_thread_laws
           std_thread.pool_creations std_thread.pool std_thread.pool_store 3
           pool_created pool_created_fuel).
Defined.

(** In the sample pool the thread created first, the one with the default
    attributes, is the last of the list. *)
Example pool_order :
  reverse (creation_order std_thread.pool_creations)
  = std_thread.pool_nodes.*2.
Proof. reflexivity. Qed.

Lemma setters_reach_present_threads_only_witness :
  owns std_thread.pool std_thread.pool_store std_thread.pool_nodes ∧
  length std_thread.pool_nodes ≤ 3 ∧
  (∀ fuel0 s0, set_tunable fuel0 (Priority 9%Z) new_group s0 = Ok ((), s0)) ∧
  ∃ s1,
    set_tunable 3 (Priority 9%Z) std_thread.pool std_thread.pool_store
      = Ok ((), s1) ∧
    owns std_thread.pool s1
      (prod_map id (tune (Priority 9%Z)) <$> std_thread.pool_nodes) ∧
    ∀ f attr, ∃ l s2,
      create_thread_attr f attr std_thread.pool s1 = Ok (Group (Some l), s2) ∧
      owns (Group (Some l)) s2
        ((l, polyfill_thread.make f attr)
           :: (prod_map id (tune (Priority 9%Z)) <$> std_thread.pool_nodes)) ∧
      getters_read (Group (Some l)) s2 (polyfill_thread.make f attr).
Proof.
  split; [exact pool_owned|]. split; [exact pool_fuel|].
  exact (setters_reach_present_threads_only std_thread.pool
           std_thread.pool_store std_thread.pool_nodes 3 (Priority 9%Z)
           pool_owned pool_fuel).
Defined.

Lemma getters_after_setter_witness :
  owns std_thread.pool std_thread.pool_store std_thread.pool_nodes ∧
  length std_thread.pool_nodes ≤ 3 ∧
  ∃ s',
    set_tunable 3 (Priority 9%Z) std_thread.pool std_thread.pool_store
      = Ok ((), s') ∧
    getters_read std_thread.pool s'
      (tune (Priority 9%Z) (polyfill_thread.make "run"%string 7%Z)).
Proof.
  split; [exact pool_owned|]. split; [exact pool_fuel|].
  exact (getters_after_setter std_thread.pool std_thread.pool_store
           3%positive (polyfill_thread.make "run"%string 7%Z)
           [(2%positive, polyfill_thread.make "run"%string 7%Z);
            (1%positive, polyfill_thread.make "run"%string 0%Z)]
           3 (Priority 9%Z) pool_owned pool_fuel).
Defined.

Lemma first_group_listed :
  is_list (heap sample_two_groups.shared_store)
    (first_ sample_two_groups.first_group) sample_two_groups.first_nodes.
Proof.
  split; [done|]. eexists; split; [by vm_compute|].
  split; [done|]. eexists; split; [by vm_compute|]. done.
Qed.

Lemma second_group_listed :
  is_list (heap sample_two_groups.shared_store)
    (first_ sample_two_groups.second_group) sample_two_groups.second_nodes.
Proof. split; [done|]. eexists; split; [by vm_compute|]. done. Qed.

Lemma two_groups_disjoint :
  NoDup (sample_two_groups.first_nodes.*1 ++ sample_two_groups.second_nodes.*1).
Proof. apply (bool_decide_unpack _). by vm_compute. Qed.

Lemma first_group_fuel : length sample_two_groups.first_nodes ≤ 2.
Proof. cbn. lia. Qed.

Lemma groups_do_not_interfere_witness :
  CpfThreadLaws std_thread.threads ∧
  is_list (heap sample_two_groups.shared_store)
    (first_ sample_two_groups.first_group) sample_two_groups.first_nodes ∧
  is_list (heap sample_two_groups.shared_store)
    (first_ sample_two_groups.second_group) sample_two_groups.second_nodes ∧
  NoDup (sample_two_groups.first_nodes.*1 ++ sample_two_groups.second_nodes.*1) ∧
  length sample_two_groups.first_nodes ≤ 2 ∧
  ∃ s',
    join 2 sample_two_groups.first_group sample_two_groups.shared_store
      = Ok (new_group, s') ∧
    is_list (heap s') (first_ sample_two_groups.second_group)
      sample_two_groups.second_nodes.
Proof.
  split; [exact std_thread_laws|]. split; [exact first_group_listed|].
  split; [exact second_group_listed|]. split; [exact two_groups_disjoint|].
  split; [exact first_group_fuel|].
  exact (proj2 (proj2 (@groups_do_not_interfere std_thread.threads
                         std_thread_laws sample_two_groups.first_group
                         sample_two_groups.second_group
                         sample_two_groups.shared_store
                         sample_two_groups.first_nodes
                         sample_two_groups.second_nodes 2 first_group_listed
                         second_group_listed two_groups_disjoint
                         first_group_fuel))).
Defined.

Lemma busy_day_fuel : created_by sample_two_groups.busy_day ≤ 3.
Proof. vm_compute. lia. Qed.

Lemma operations_keep_ownership_witness :
  CpfThreadLaws std_thread.threads ∧
  created_by sample_two_groups.busy_day ≤ 3 ∧
  ∃ g s ns,
    run_operations 3 sample_two_groups.busy_day new_group empty_store
      = Ok (g, s) ∧
    owns g s ns ∧ length ns = alive sample_two_groups.busy_day 0 ∧
    ∃ s', destroy 3 g s = Ok (new_group, s') ∧ heap s' = ∅.
Proof.
  split; [exact std_thread_laws|]. split; [exact busy_day_fuel|].
  exact (@operations_keep_ownership std_thread.threads std_thread_laws
           sample_two_groups.busy_day 3 busy_day_fuel).
Defined.

Lemma nodes_released_only_after_join_witness :
  CpfThreadLaws std_thread.threads ∧
  created_by sample_two_groups.busy_day ≤ 3 ∧
  ∃ g s,
    run_operations 3 sample_two_groups.busy_day new_group empty_store
      = Ok (g, s) ∧
    released_after_join (log s).
Proof.
  split; [exact std_thread_laws|]. split; [exact busy_day_fuel|].
  exact (@nodes_released_only_after_join std_thread.threads std_thread_laws
           sample_two_groups.busy_day 3 busy_day_fuel).
Defined.

(** The sample day ends with one thread in the group and four events in
    the log. *)
Example busy_day_runs :
  match run_operations 3 sample_two_groups.busy_day new_group empty_store with
  | Ok (g, s) => first_ g = Some 1%positive ∧ length (log s) = 4
  | _ => False
  end.
Proof. vm_compute. by split. Qed.
End sample_pool_use.
